(** * Shallow embedding of the [mh] standardisation pipeline

    Sources: [src/mh/utils.py] ([read_parquet_safe], [_normalize_key],
    [_fallback_iso_map], [_fallback_lookup], [to_iso3]) and
    [src/mh/data.py] ([ingest_csv], [clean], [gender_gap], [join_external]). *)

From Stdlib Require Import String Ascii List Bool Arith NArith ZArith QArith Lia.
Import ListNotations.
Open Scope string_scope.
Local Set Warnings "-register-all".

(** ** Generic helpers *)

(** Python's [pat in s] on strings. *)
Fixpoint str_contains (pat s : string) : bool :=
  if String.prefix pat s then true
  else match s with
       | EmptyString => false
       | String _ s' => str_contains pat s'
       end.

Definition mem_str (x : string) (l : list string) : bool :=
  existsb (String.eqb x) l.

(** ** Resilient reader: [read_parquet_safe] (utils.py)

    Every call into pandas / pyarrow / fastparquet is an external
    collaborator; the environment fixes what each call returns or raises.
    An exception carries an identity ([nat]) so that re-raising the same
    object can be told apart from raising a new one. *)
Module Reader.

Inductive exn : Type :=
| OSError (id : nat) (msg : string)
| TypeError (id : nat)
| ImportError (id : nat)
| KeyError (missing : list string)
| OtherError (id : nat) (msg : string).

(** A frame: its columns, each with an opaque content token. *)
Definition frame := list (string * nat).

Inductive outcome : Type :=
| Ok (f : frame)
| Err (e : exn).

(** Strategies, in the order the code may try them. *)
Inductive strategy : Type :=
| Primary        (* pd.read_parquet(path, columns=columns) *)
| Legacy         (* pq.read_table(path, use_legacy_dataset=True, ...) *)
| PlainTable     (* pq.read_table(path, use_threads=False) after TypeError *)
| SingleFile     (* pq.ParquetFile(path).read(...) *)
| FastParquet.   (* pd.read_parquet(..., engine="fastparquet") *)

Record env : Type := {
  primary : outcome;
  pyarrow_importable : bool;
  legacy : outcome;
  plain_table : outcome;
  single_file : outcome;
  (* import of fastparquet and the read, both under [except Exception] *)
  fastparquet : outcome
}.

Definition defect_msg : string := "Repetition level histogram size mismatch".

(** [except OSError as err: if "..." not in str(err): raise] *)
Definition is_defect (e : exn) : bool :=
  match e with
  | OSError _ m => str_contains defect_msg m
  | _ => false
  end.

Definition is_oserror (e : exn) : bool :=
  match e with OSError _ _ => true | _ => false end.

(** The post-read column check ([if columns: ...; frame = frame[columns]]);
    [columns] is [None] or a list, and an empty list is falsy. *)
Definition select_columns (columns : option (list string)) (fr : frame) : outcome :=
  match columns with
  | None | Some [] => Ok fr
  | Some cs =>
      let missing := filter (fun c => negb (mem_str c (map fst fr))) cs in
      match missing with
      | [] => Ok (flat_map (fun c => match find (fun p => String.eqb (fst p) c) fr with
                                     | Some p => [p] | None => [] end) cs)
      | _ => Err (KeyError missing)
      end
  end.

(** The outcome of the whole call, with the strategies attempted in order. *)
Definition read_parquet_safe (E : env) (columns : option (list string))
  : outcome * list strategy :=
  match primary E with
  | Ok fr => (Ok fr, [Primary])
  | Err err =>
      if negb (is_oserror err) then (Err err, [Primary])
      else if negb (is_defect err) then (Err err, [Primary])
      else if negb (pyarrow_importable E) then (Err err, [Primary])
      else
        match legacy E with
        | Ok table => (select_columns columns table, [Primary; Legacy])
        | Err (TypeError _) =>
            (* the retry runs inside the [except TypeError] handler: the
               sibling [except OSError] clause does not see its errors *)
            match plain_table E with
            | Ok table => (select_columns columns table, [Primary; Legacy; PlainTable])
            | Err e => (Err e, [Primary; Legacy; PlainTable])
            end
        | Err err2 =>
            if negb (is_oserror err2) then (Err err2, [Primary; Legacy])
            else if negb (is_defect err2) then (Err err2, [Primary; Legacy])
            else
              match single_file E with
              | Ok table => (select_columns columns table, [Primary; Legacy; SingleFile])
              | Err err3 =>
                  if negb (is_oserror err3) then (Err err3, [Primary; Legacy; SingleFile])
                  else if negb (is_defect err3) then (Err err3, [Primary; Legacy; SingleFile])
                  else
                    match fastparquet E with
                    | Ok fr => (Ok fr, [Primary; Legacy; SingleFile; FastParquet])
                    | Err _ => (Err err3, [Primary; Legacy; SingleFile; FastParquet])
                    end
              end
        end
  end.

Definition defect_err (id : nat) : exn :=
  OSError id ("Couldn't deserialize thrift: " ++ defect_msg).

(** Every strategy fails with the defect, each with its own exception. *)
Definition all_defect_env : env := {|
  primary := Err (defect_err 1);
  pyarrow_importable := true;
  legacy := Err (defect_err 2);
  plain_table := Err (defect_err 5);
  single_file := Err (defect_err 3);
  fastparquet := Err (defect_err 4)
|}.

End Reader.

(** ** Code resolver: [_normalize_key], [_fallback_iso_map],
    [_fallback_lookup], [to_iso3] (utils.py)

    Python strings are sequences of Unicode code points, here [list N].
    The Unicode character database is taken as section variables: the full
    lower-case mapping of a code point, [str.isalnum], and the properties
    Cased and Case_Ignorable that [str.lower] consults for U+03A3; the
    concrete instances [latin1_*] below agree with CPython on
    U+0000..U+00FF. *)
Module Resolver.

Definition ustr := list N.

(** An ASCII literal as a sequence of code points. *)
Fixpoint u (s : string) : ustr :=
  match s with
  | EmptyString => []
  | String c s' => N_of_ascii c :: u s'
  end.

Fixpoint ustr_eqb (a b : ustr) : bool :=
  match a, b with
  | [], [] => true
  | x :: a', y :: b' => N.eqb x y && ustr_eqb a' b'
  | _, _ => false
  end.

(** [str.isspace]: the code points CPython treats as whitespace. *)
Definition py_isspace (c : N) : bool :=
  ((9 <=? c) && (c <=? 13))%N || ((28 <=? c) && (c <=? 32))%N
  || (c =? 133)%N || (c =? 160)%N || (c =? 5760)%N
  || ((8192 <=? c) && (c <=? 8202))%N || (c =? 8232)%N || (c =? 8233)%N
  || (c =? 8239)%N || (c =? 8287)%N || (c =? 12288)%N.

Fixpoint drop_space (s : ustr) : ustr :=
  match s with
  | c :: s' => if py_isspace c then drop_space s' else s
  | [] => []
  end.

(** [str.strip()] *)
Definition strip (s : ustr) : ustr := rev (drop_space (rev (drop_space s))).

(** Values of the country column before [astype(str)]. *)
Inductive pyval : Type :=
| VStr (s : ustr)
| VInt (z : Z)
| VNone
| VNaN.

Definition digit (d : Z) : N := (48 + Z.to_N d)%N.

Fixpoint digits_aux (fuel : nat) (z : Z) (acc : ustr) : ustr :=
  match fuel with
  | O => acc
  | S f => if (z <? 10)%Z then digit z :: acc
           else digits_aux f (z / 10)%Z (digit (z mod 10)%Z :: acc)
  end.

(** [str(x)], i.e. [astype(str)] applied to one cell. *)
Definition py_str (v : pyval) : ustr :=
  match v with
  | VStr s => s
  | VInt z => if (z <? 0)%Z then 45%N :: digits_aux 64 (- z)%Z []
              else digits_aux 64 z []
  | VNone => u "None"
  | VNaN => u "nan"
  end.

(** What [country_converter.convert] hands back; a list or tuple is
    represented by its first element ([None] when empty), the only part
    [to_iso3] reads. *)
Inductive pyobj : Type :=
| OStr (s : ustr)
| ONone
| OSeq (first : option pyobj)
| ORaise.

Section Normalize.

Variable lower : N -> list N.
Variable isalnum : N -> bool.
Variable cased : N -> bool.
Variable case_ignorable : N -> bool.

(** [handle_capital_sigma] of CPython: U+03A3 is in the Final_Sigma context
    when, skipping case-ignorable code points, a cased code point precedes
    it and none follows it. [before] lists the preceding code points, the
    nearest first. *)
Definition final_sigma (before after : ustr) : bool :=
  match find (fun c => negb (case_ignorable c)) before with
  | Some c =>
      cased c && match find (fun c => negb (case_ignorable c)) after with
                 | Some d => negb (cased d)
                 | None => true
                 end
  | None => false
  end.

(** [str.lower()] ([lower_ucs4]): each code point by its full lower-case
    mapping, except U+03A3, which becomes U+03C2 (final sigma) in the
    Final_Sigma context and U+03C3 otherwise. *)
Fixpoint py_lower_from (before s : ustr) : ustr :=
  match s with
  | [] => []
  | c :: s' =>
      ((if (c =? 931)%N then [if final_sigma before s' then 962%N else 963%N] else lower c)
       ++ py_lower_from (c :: before) s')%list
  end.

Definition py_lower (s : ustr) : ustr := py_lower_from [] s.

(** [_normalize_key]: ["".join(ch for ch in value.lower() if ch.isalnum())] *)
Definition normalize_key (s : ustr) : ustr := filter isalnum (py_lower s).

(** A Python dict with insertion order: assignment to an existing key
    keeps its position and replaces its value. *)
Fixpoint dict_set (m : list (ustr * ustr)) (k v : ustr) : list (ustr * ustr) :=
  match m with
  | [] => [(k, v)]
  | (k', v') :: m' => if ustr_eqb k k' then (k', v) :: m' else (k', v') :: dict_set m' k v
  end.

Fixpoint dict_get (m : list (ustr * ustr)) (k : ustr) : option ustr :=
  match m with
  | [] => None
  | (k', v) :: m' => if ustr_eqb k k' then Some v else dict_get m' k
  end.

(** [_fallback_iso_map]: the bundled JSON object [raw] (name -> code),
    re-keyed by normalized name. *)
Definition fallback_iso_map (raw : list (ustr * ustr)) : list (ustr * ustr) :=
  fold_left (fun m nc => dict_set m (normalize_key (fst nc)) (snd nc)) raw [].

(** [_fallback_lookup] *)
Definition fallback_lookup (raw : list (ustr * ustr)) (x : pyval) : option ustr :=
  match x with
  | VStr name =>
      let key := normalize_key name in
      match key with
      | [] => None
      | _ => dict_get (fallback_iso_map raw) key
      end
  | _ => None
  end.

Definition not_found_sentinel (s : ustr) : bool :=
  let t := strip (py_lower s) in
  ustr_eqb t (u "not found") || ustr_eqb t (u "notfound") || ustr_eqb t [].

(** The inner [_map] of [to_iso3]; [cc] is [_cc] ([None] when
    country_converter is not installed). [None] in the result is [np.nan]. *)
Definition to_iso3_map (cc : option (ustr -> pyobj)) (raw : list (ustr * ustr))
    (x : pyval) : option ustr :=
  let name := match x with VStr s => strip s | _ => [] end in
  match name with
  | [] => None
  | _ =>
      let code :=
        match cc with
        | None => ONone
        | Some convert =>
            let c := match convert name with ORaise => ONone | c => c end in
            let c := match c with
                     | OSeq None => ONone
                     | OSeq (Some h) => h
                     | c => c
                     end in
            match c with
            | OStr s => if not_found_sentinel s then ONone else c
            | c => c
            end
        end in
      let code :=
        match code with
        | OStr s => match strip s with
                    | [] => match fallback_lookup raw (VStr name) with
                            | Some r => OStr r | None => ONone end
                    | _ => code
                    end
        | _ => match fallback_lookup raw (VStr name) with
               | Some r => OStr r | None => ONone end
        end in
      match code with
      | OStr ((_ :: _) as s) => Some s
      | _ => None
      end
  end.

(** [to_iso3]: [country_series.astype(str).map(_map)]. *)
Definition to_iso3 (cc : option (ustr -> pyobj)) (raw : list (ustr * ustr))
    (series : list pyval) : list (option ustr) :=
  map (fun v => to_iso3_map cc raw (VStr (py_str v))) series.

(** Case, punctuation and spacing variants of a name: change a code point
    for one with the same lower case, or insert one whose lower case has no
    alphanumeric code point. *)
Inductive variant : ustr -> ustr -> Prop :=
| variant_refl s : variant s s
| variant_case a c c' b :
    lower c = lower c' -> variant (a ++ c :: b)%list (a ++ c' :: b)%list
| variant_punct a c b :
    forallb (fun x => negb (isalnum x)) (lower c) = true ->
    variant (a ++ b)%list (a ++ c :: b)%list
| variant_sym s t : variant s t -> variant t s
| variant_trans s t w : variant s t -> variant t w -> variant s w.

End Normalize.

(** CPython's [str.lower] on one code point, exact on U+0000..U+00FF. *)
Definition latin1_lower (c : N) : list N :=
  if ((65 <=? c) && (c <=? 90))%N
     || ((192 <=? c) && (c <=? 222) && negb (c =? 215))%N
  then [(c + 32)%N] else [c].

(** The Cased property, exact on U+0000..U+00FF. *)
Definition latin1_cased (c : N) : bool :=
  ((65 <=? c) && (c <=? 90))%N || ((97 <=? c) && (c <=? 122))%N
  || (c =? 170)%N || (c =? 181)%N || (c =? 186)%N
  || ((192 <=? c) && (c <=? 214))%N || ((216 <=? c) && (c <=? 246))%N
  || ((248 <=? c) && (c <=? 255))%N.

(** The Case_Ignorable property, exact on U+0000..U+00FF. *)
Definition latin1_case_ignorable (c : N) : bool :=
  existsb (N.eqb c) [39; 46; 58; 94; 96; 168; 173; 175; 180; 183; 184]%N.

(** CPython's [str.isalnum], exact on U+0000..U+00FF. *)
Definition latin1_isalnum (c : N) : bool :=
  ((48 <=? c) && (c <=? 57))%N || ((65 <=? c) && (c <=? 90))%N
  || ((97 <=? c) && (c <=? 122))%N
  || (c =? 170)%N || (c =? 178)%N || (c =? 179)%N || (c =? 181)%N
  || (c =? 185)%N || (c =? 186)%N || ((188 <=? c) && (c <=? 190))%N
  || ((192 <=? c) && (c <=? 214))%N || ((216 <=? c) && (c <=? 246))%N
  || ((248 <=? c) && (c <=? 255))%N.

(** The same tables extended to the Greek letters U+0391..U+03CE: the
    capitals U+0391..U+03AB (U+03A2 is unassigned) lower-case to the code
    point 32 above; all of them are cased and alphanumeric, none is
    case-ignorable. *)
Definition greek_letter (c : N) : bool := ((913 <=? c) && (c <=? 974) && negb (c =? 930))%N.

Definition greek_lower (c : N) : list N :=
  if ((913 <=? c) && (c <=? 939) && negb (c =? 930))%N then [(c + 32)%N] else latin1_lower c.

Definition greek_isalnum (c : N) : bool := greek_letter c || latin1_isalnum c.

Definition greek_cased (c : N) : bool := greek_letter c || latin1_cased c.

(** "Côte d'Ivoire" (U+00F4 for the o with circumflex). *)
Definition cote_divoire_accented : ustr := (u "C" ++ [244%N] ++ u "te d'Ivoire")%list.
Definition cote_divoire_plain : ustr := u "cote d ivoire".

(** A bundled table keyed by the plain spelling that country_converter
    uses as short name. *)
Definition bundle_civ : list (ustr * ustr) := [(u "Cote d'Ivoire", u "CIV")].

(** A stand-in for country_converter on digit strings, which it reads as
    ISO numeric codes (4 is Afghanistan); any other name is not found. *)
Definition coco_numeric (name : ustr) : pyobj :=
  if ustr_eqb name (u "4") then OStr (u "AFG") else OStr (u "not found").

End Resolver.

(** ** Tables (pandas DataFrames) and the operations of data.py

    A cell is a float (as an exact rational), a string or missing
    ([np.nan] / [None] / [pd.NA]); a row maps column names to cells and a
    table lists its columns and its rows. As pandas does in [merge],
    [duplicated] and [groupby] keys, two missing cells compare equal. *)
Module Frame.

Inductive cell : Type :=
| CNull
| CNum (q : Q)
| CStr (s : string).

Definition row := string -> cell.

Record table : Type := { tcols : list string; trows : list row }.

Inductive pyerr : Type :=
| KeyError (col : string)
| ValueError (msg : string)
| TypeError
| IndexError.

Definition mkrow (l : list (string * cell)) : row :=
  fun c => match find (fun p => String.eqb (fst p) c) l with
           | Some p => snd p
           | None => CNull
           end.

Definition cell_eqb (a b : cell) : bool :=
  match a, b with
  | CNull, CNull => true
  | CNum x, CNum y => Qeq_bool x y
  | CStr x, CStr y => String.eqb x y
  | _, _ => false
  end.

Fixpoint cells_eqb (a b : list cell) : bool :=
  match a, b with
  | [], [] => true
  | x :: a', y :: b' => cell_eqb x y && cells_eqb a' b'
  | _, _ => false
  end.

Definition notnull (c : cell) : bool :=
  match c with CNull => false | _ => true end.

Definition proj (cols : list string) (r : row) : list cell := map r cols.

Definition is_num (c : cell) : bool :=
  match c with CNum _ => true | _ => false end.

Definition is_str (c : cell) : bool :=
  match c with CStr _ => true | _ => false end.

Definition num_of (c : cell) : Q :=
  match c with CNum q => q | _ => 0 end.

(** [mean(skipna=True)] over cells already known to hold no string. *)
Definition mean_skipna (vs : list cell) : cell :=
  match filter is_num vs with
  | [] => CNull
  | ns => CNum (Qred (fold_right Qplus 0 (map num_of ns) / inject_Z (Z.of_nat (length ns))))
  end.

(** *** [ingest_csv], lines 14-16: derivation of [prevalence_total]
    ([df[["prevalence_male", "prevalence_female"]].mean(axis=1)]; a string
    in either column makes the row mean raise). *)
Definition derive_total (t : table) : pyerr + table :=
  if negb (mem_str "prevalence_total" (tcols t))
     && mem_str "prevalence_male" (tcols t) && mem_str "prevalence_female" (tcols t)
  then
    if existsb (fun r => is_str (r "prevalence_male") || is_str (r "prevalence_female")) (trows t)
    then inl TypeError
    else inr {| tcols := tcols t ++ ["prevalence_total"];
                trows := map (fun r c =>
                           if String.eqb c "prevalence_total"
                           then mean_skipna [r "prevalence_male"; r "prevalence_female"]
                           else r c) (trows t) |}
  else inr t.

(** *** [clean] *)

(** [drop_duplicates(subset=...)] keeping the first occurrence; [seen]
    holds the projections of the rows kept so far. *)
Fixpoint dedup_aux (subset : list string) (seen : list (list cell)) (rows : list row)
  : list row :=
  match rows with
  | [] => []
  | r :: rs =>
      let p := proj subset r in
      if existsb (cells_eqb p) seen then dedup_aux subset seen rs
      else r :: dedup_aux subset (p :: seen) rs
  end.

Definition drop_duplicates (subset : list string) (rows : list row) : list row :=
  dedup_aux subset [] rows.

Definition clean_valid (r : row) : bool :=
  notnull (r "country_iso3") && notnull (r "year").

Definition dedup_subset (t : table) : list string :=
  filter (fun c => negb (String.eqb c "sex")) (tcols t).

Definition clean (t : table) : pyerr + table :=
  if negb (mem_str "country_iso3" (tcols t)) then
    inl (ValueError "Missing required column 'country_iso3'. Check your columns.yaml mapping and ingest step.")
  else if negb (mem_str "year" (tcols t)) then
    inl (ValueError "Missing required column 'year'. Check your columns.yaml mapping and ingest step.")
  else
    let rows := filter clean_valid (trows t) in
    inr {| tcols := tcols t; trows := drop_duplicates (dedup_subset t) rows |}.

(** *** [join_external]: [pd.merge(base, external, on=on, how="left")]
    (pandas 2; both frames carry the default unnamed index). *)

(** [_get_label_or_level_values]: a key labelling no column raises
    [KeyError], one labelling several columns raises [ValueError]. *)
Definition label_error (t : table) (c : string) : option pyerr :=
  match length (filter (String.eqb c) (tcols t)) with
  | O => Some (KeyError c)
  | S O => None
  | _ => Some (ValueError ("The column label '" ++ c ++ "' is not unique."))
  end.

(** [_get_merge_keys]: for each key in turn, the external frame is looked
    up first, then the base. *)
Fixpoint key_error (base ext : table) (on : list string) : option pyerr :=
  match on with
  | [] => None
  | c :: cs =>
      match label_error ext c with
      | Some e => Some e
      | None =>
          match label_error base c with
          | Some e => Some e
          | None => key_error base ext cs
          end
      end
  end.

(** The labels of the result ([_items_overlap_with_suffix]): the key
    columns of the external frame are dropped, and a label that both sides
    still share gets the suffix "_x" on the base side and "_y" on the
    external side. *)
Definition ext_value_cols (ext : table) (on : list string) : list string :=
  filter (fun c => negb (mem_str c on)) (tcols ext).

Definition base_labels (base ext : table) (on : list string) : list string :=
  map (fun c => if mem_str c (ext_value_cols ext on) then c ++ "_x" else c) (tcols base).

Definition ext_labels (base ext : table) (on : list string) : list string :=
  map (fun c => if mem_str c (tcols base) then c ++ "_y" else c) (ext_value_cols ext on).

(** [labels.duplicated() & ~orig.duplicated()]: a label repeated by the
    suffix although its original label was not repeated. *)
Fixpoint suffix_dup (orig labels seen_o seen_l : list string) : bool :=
  match orig, labels with
  | o :: os, l :: ls =>
      (mem_str l seen_l && negb (mem_str o seen_o)) || suffix_dup os ls (o :: seen_o) (l :: seen_l)
  | _, _ => false
  end.

Definition suffix_clash (base ext : table) (on : list string) : bool :=
  suffix_dup (tcols base) (base_labels base ext on) [] []
  || suffix_dup (ext_value_cols ext on) (ext_labels base ext on) [] [].

Section Merge.

(** [_maybe_coerce_merge_keys]: the [ValueError] message raised for the
    key [c], if any. pandas decides it from the dtypes of the two key
    columns, which cells do not carry: it refuses, for instance, an object
    column of strings against a float64 or Int64 column. *)
Variable key_dtype_error : table -> table -> string -> option string.

Fixpoint dtype_error (base ext : table) (on : list string) : option pyerr :=
  match on with
  | [] => None
  | c :: cs =>
      match key_dtype_error base ext c with
      | Some m => Some (ValueError m)
      | None => dtype_error base ext cs
      end
  end.

(** The result: its column labels, and rows that pair a base row with its
    matching external rows, or with [None] where the external columns are
    null. With no key at all, [get_join_indexers] fails on [left_keys[0]]
    ([IndexError]); a suffix clash raises [MergeError] ("Passing 'suffixes'
    which cause duplicate columns ... is not allowed."), a [ValueError]. *)
Definition join_external (base ext : table) (on : list string)
  : pyerr + (list string * list (row * option row)) :=
  match key_error base ext on with
  | Some e => inl e
  | None =>
      match dtype_error base ext on with
      | Some e => inl e
      | None =>
          match on with
          | [] => inl IndexError
          | _ =>
              if suffix_clash base ext on
              then inl (ValueError "Passing 'suffixes' which cause duplicate columns is not allowed.")
              else
                inr ((base_labels base ext on ++ ext_labels base ext on)%list,
                     flat_map (fun b =>
                       match filter (fun e => cells_eqb (proj on b) (proj on e)) (trows ext) with
                       | [] => [(b, None)]
                       | ms => map (fun e => (b, Some e)) ms
                       end) (trows base))
          end
      end
  end.

End Merge.

End Frame.

(** ** [gender_gap] (data.py, lines 41-88) *)
Module Gap.
Import Frame.

Definition keys : list string := ["country"; "country_iso3"; "year"].
Definition indicators : list string :=
  ["prevalence_total"; "prevalence_depression"; "prevalence_anxiety"].

(** One gap column with the key of each of its rows. *)
Record part : Type := { pname : string; prows : list (list cell * cell) }.

(** The merged result: gap column names and, per row, key and gap cells. *)
Record gtable : Type := { gnames : list string; grows : list (list cell * list cell) }.

Definition lower_ascii_char (c : ascii) : ascii :=
  let n := nat_of_ascii c in
  if Nat.leb 65 n && Nat.leb n 90 then ascii_of_nat (n + 32)%nat else c.

Fixpoint lower_ascii (s : string) : string :=
  match s with
  | EmptyString => EmptyString
  | String c s' => String (lower_ascii_char c) (lower_ascii s')
  end.

Definition first_missing (cols need : list string) : option string :=
  find (fun c => negb (mem_str c cols)) need.

(** [str(c).lower() == lbl] for a sex value [c]; a number never spells a
    sex. *)
Definition label_is (lbl : string) (c : cell) : bool :=
  match c with CStr s => String.eqb (lower_ascii s) lbl | _ => false end.

Definition sub_cells (a b : cell) : cell :=
  match a, b with CNum x, CNum y => CNum (x - y) | _, _ => CNull end.

(** Rows that [groupby] keeps: no missing key, no missing [sex]. *)
Definition long_valid (r : row) : bool :=
  forallb notnull (proj keys r) && notnull (r "sex").

Fixpoint uniq_keys (seen : list (list cell)) (ks : list (list cell)) : list (list cell) :=
  match ks with
  | [] => []
  | k :: ks' => if existsb (cells_eqb k) seen then uniq_keys seen ks'
                else k :: uniq_keys (k :: seen) ks'
  end.

Definition sex_mean (t : table) (name : string) (k : list cell) (lbl : string) : cell :=
  mean_skipna (map (fun r => r name)
    (filter (fun r => long_valid r && cells_eqb (proj keys r) k && label_is lbl (r "sex"))
       (trows t))).

Definition has_sex_col (t : table) (name lbl : string) : bool :=
  existsb (fun r => long_valid r && label_is lbl (r "sex") && is_num (r name)) (trows t).

(** [df.pivot_table(index=keys, columns="sex", values=name, aggfunc="mean")],
    the lower-casing of the sex columns and [female - male]: [None] when
    the pivot lacks a "female" or a "male" column. Groups and columns that
    are all missing are dropped, as [pivot_table(dropna=True)] does; the
    row order of pandas (sorted keys) is not modelled, nor two sex labels
    that lower-case to the same name (pandas then has duplicate columns;
    here their rows are pooled). *)
Definition pivot_gap (t : table) (name : string) : pyerr + option (list (list cell * cell)) :=
  match first_missing (tcols t) keys with
  | Some c => inl (KeyError c)
  | None =>
      if existsb (fun r => long_valid r && is_str (r name)) (trows t) then inl TypeError
      else if has_sex_col t name "female" && has_sex_col t name "male" then
        inr (Some (map (fun k => (k, sub_cells (sex_mean t name k "female") (sex_mean t name k "male")))
                     (uniq_keys [] (map (proj keys)
                        (filter (fun r => long_valid r && is_num (r name)) (trows t))))))
      else inr None
  end.

(** The long-shape loop, run when "sex" is a column. *)
Fixpoint long_loop (t : table) (names produced : list string) (out : list part)
  : pyerr + (list part * list string) :=
  match names with
  | [] => inr (out, produced)
  | name :: ns =>
      if mem_str name (tcols t) then
        match pivot_gap t name with
        | inl e => inl e
        | inr None => long_loop t ns produced out
        | inr (Some rows) =>
            let g := name ++ "_gap_fm" in
            if mem_str g produced then long_loop t ns produced out
            else long_loop t ns (produced ++ [g])%list (out ++ [{| pname := g; prows := rows |}])%list
        end
      else long_loop t ns produced out
  end.

(** [s.endswith(suf)] *)
Definition ends_with (suf s : string) : bool :=
  Nat.leb (String.length suf) (String.length s)
  && String.eqb (substring (String.length s - String.length suf)%nat (String.length suf) s) suf.

(** [s[:-5]] (for [s] of length at least 5). *)
Definition drop_last5 (s : string) : string := substring 0 (String.length s - 5)%nat s.

(** [s.rstrip("_")] *)
Fixpoint rstrip_us (s : string) : string :=
  match s with
  | EmptyString => EmptyString
  | String c s' =>
      let r := rstrip_us s' in
      match r with
      | EmptyString => if Ascii.eqb c "_" then EmptyString else String c EmptyString
      | _ => String c r
      end
  end.

(** Lines 66-74: the gap name of a [*_male] column. *)
Definition wide_gap_name (male_col : string) : string :=
  let base := drop_last5 male_col in
  let ind := if ends_with "_" base then rstrip_us base else base in
  let ind := match ind with EmptyString => drop_last5 male_col | _ => ind end in
  ind ++ "_gap_fm".

Fixpoint wide_loop (t : table) (male_cols produced : list string) (out : list part)
  : pyerr + list part :=
  match male_cols with
  | [] => inr out
  | mc :: ms =>
      let female_col := drop_last5 mc ++ "_female" in
      if negb (mem_str female_col (tcols t)) then wide_loop t ms produced out
      else
        let g := wide_gap_name mc in
        if mem_str g produced then wide_loop t ms produced out
        else
          match first_missing (tcols t) keys with
          | Some c => inl (KeyError c)                       (* df[keys] *)
          | None =>
              if existsb (fun r => is_str (r female_col) || is_str (r mc)) (trows t)
              then inl TypeError
              else wide_loop t ms (produced ++ [g])%list
                     (out ++ [{| pname := g;
                                 prows := map (fun r => (proj keys r, sub_cells (r female_col) (r mc)))
                                           (trows t) |}])%list
          end
  end.

(** The list [out] of gap tables, in the order produced. *)
Definition gender_gap_parts (t : table) : pyerr + list part :=
  match (if mem_str "sex" (tcols t) then long_loop t indicators [] [] else inr ([], [])) with
  | inl e => inl e
  | inr (out, produced) => wide_loop t (filter (ends_with "_male") (tcols t)) produced out
  end.

(** [pd.merge(res, part, on=keys, how="outer")]; missing keys match each
    other, as in pandas. Rows come left rows first (each with its matches),
    then the unmatched right rows; pandas sorts them by key instead. *)
Definition merge_outer (l : gtable) (p : part) : gtable :=
  let w := length (gnames l) in
  {| gnames := (gnames l ++ [pname p])%list;
     grows :=
       (flat_map (fun kv =>
          match filter (fun kc => cells_eqb (fst kv) (fst kc)) (prows p) with
          | [] => [(fst kv, snd kv ++ [CNull])%list]
          | ms => map (fun kc => (fst kv, snd kv ++ [snd kc])%list) ms
          end) (grows l)
        ++ map (fun kc => (fst kc, repeat CNull w ++ [snd kc])%list)
             (filter (fun kc => negb (existsb (fun kv => cells_eqb (fst kv) (fst kc)) (grows l)))
                (prows p)))%list |}.

Definition gtable_of (p : part) : gtable :=
  {| gnames := [pname p]; grows := map (fun kc => (fst kc, [snd kc])) (prows p) |}.

Definition merge_parts (p : part) (ps : list part) : gtable :=
  fold_left merge_outer ps (gtable_of p).

Definition gender_gap (t : table) : pyerr + gtable :=
  match gender_gap_parts t with
  | inl e => inl e
  | inr [] => inl (ValueError "Sex-stratified columns not found. Provide 'sex' column or *_male/*_female pairs.")
  | inr (p :: ps) => inr (merge_parts p ps)
  end.


(** What the merged gap table [g] keeps of the gap tables [qs] it merges:
    one gap column per table, in order; every row key comes from some gap
    table; every key of every gap table is matched by a row; and a non-null
    gap cell in column [j] comes from a row of gap table [j] with that key. *)
Definition merge_inv (g : gtable) (qs : list part) : Prop :=
  gnames g = map pname qs
  /\ (forall k vs, In (k, vs) (grows g) -> length vs = length qs)
  /\ (forall k vs, In (k, vs) (grows g) -> exists q c, In q qs /\ In (k, c) (prows q))
  /\ (forall q k c, In q qs -> In (k, c) (prows q) ->
        exists k' vs, In (k', vs) (grows g) /\ cells_eqb k' k = true)
  /\ (forall k vs j c, In (k, vs) (grows g) -> nth_error vs j = Some c -> c <> CNull ->
        exists q kq, nth_error qs j = Some q /\ In (kq, c) (prows q) /\ cells_eqb k kq = true).

End Gap.

(** ** Column helpers of utils.py: [coalesce_first], [ensure_numeric] *)
Module Utils.
Import Frame.

(** [df[c] = values]: an existing column is replaced in place, a new one
    is appended at the end. *)
Definition set_col (t : table) (c : string) (f : row -> cell) : table :=
  {| tcols := if mem_str c (tcols t) then tcols t else tcols t ++ [c];
     trows := map (fun r x => if String.eqb x c then f r else r x) (trows t) |}.

(** [Series.fillna(other)] on one aligned pair of cells. *)
Definition fillna (a b : cell) : cell :=
  match a with CNull => b | _ => a end.

(** [coalesce_first(df, cols, out)] *)
Definition coalesce_first (t : table) (cols : list string) (out : string) : table :=
  fold_left (fun t c => if mem_str c (tcols t)
                        then set_col t out (fun r => fillna (r out) (r c))
                        else t)
    cols (set_col t out (fun _ => CNull)).

(** The first non-missing cell of a list ([None] when there is none): the
    reference against which [coalesce_first] is compared. *)
Definition first_notnull (l : list cell) : cell := fold_right fillna CNull l.

Section Numeric.

(** How [pd.to_numeric] reads one string: [None] when it is not a number
    (then [errors="coerce"] gives NaN). Cells hold finite numbers only, so
    strings that pandas reads as an infinity are outside this model. *)
Variable parse : string -> option Q.

(** [pd.to_numeric(..., errors="coerce")] on one cell. *)
Definition to_numeric_cell (c : cell) : cell :=
  match c with
  | CStr s => match parse s with Some q => CNum q | None => CNull end
  | _ => c
  end.

(** [ensure_numeric(df, cols)] *)
Definition ensure_numeric (t : table) (cols : list string) : table :=
  fold_left (fun t c => if mem_str c (tcols t)
                        then set_col t c (fun r => to_numeric_cell (r c))
                        else t)
    cols t.

End Numeric.

End Utils.

(** ** Command-line glue of cli.py *)
Module Cli.
Import Frame Resolver.

Definition year_aliases : list string := ["year"; "Year"; "YEAR"].
Definition iso_aliases : list string := ["iso_code"; "ISO3"; "iso3"; "Code"].

(** [df.rename(columns={old: new})]: every column labelled [old]. *)
Definition rename_col (old new : string) (cols : list string) : list string :=
  map (fun c => if String.eqb c old then new else c) cols.

(** The column labels after [df[c] = ...]. *)
Definition assign_col (c : string) (cols : list string) : list string :=
  if mem_str c cols then cols else cols ++ [c].

(** [join_external_cmd], lines 113-124: the column labels of the external
    table once its year and country-key columns are normalised. *)
Definition external_key_columns (cols : list string) : list string :=
  let cols :=
    match find (fun c => mem_str c cols) year_aliases with
    | Some c =>
        if String.eqb c "year" then assign_col "year" cols
        else rename_col c "year" (assign_col "year" cols)
    | None => cols
    end in
  if negb (mem_str "country_iso3" cols) then
    match find (fun c => mem_str c cols) iso_aliases with
    | Some c => rename_col c "country_iso3" cols
    | None => cols
    end
  else cols.

(** [list.count(x)] *)
Fixpoint count_str (x : string) (l : list string) : nat :=
  match l with
  | [] => 0%nat
  | y :: l' => ((if String.eqb x y then 1 else 0) + count_str x l')%nat
  end.

(** Where [forecast] takes its ISO3 code from. *)
Inductive iso_choice : Type :=
| FromTable (c : cell)
| FromResolver (code : ustr).

Inductive cli_err : Type :=
| CliKeyError (col : string)
| BadParameter (msg : string).

Section Forecast.

(** The Unicode tables of [str.lower] and [str.isalnum] (see [Resolver]). *)
Variable lower : N -> list N.
Variable isalnum : N -> bool.
Variable cased : N -> bool.
Variable case_ignorable : N -> bool.
(** [float.__str__], for number cells under [astype(str)]. *)
Variable float_str : Q -> string.
(** Whether the missing cells of the table are [None] (object column, as
    read back from parquet) rather than NaN: [astype(str)] prints them
    "None" or "nan", and only [None] passes the [is None] test. *)
Variable null_is_none : bool.
(** country_converter, when installed, and the bundled table. *)
Variable cc : option (ustr -> pyobj).
Variable raw : list (ustr * ustr).

Definition cell_ustr (c : cell) : ustr :=
  match c with
  | CStr s => u s
  | CNum q => u (float_str q)
  | CNull => if null_is_none then u "None" else u "nan"
  end.

Definition lowered (s : ustr) : ustr := py_lower lower cased case_ignorable s.

(** [forecast], lines 52-70: the ISO3 code for the [country] argument. *)
Definition forecast_country_iso3 (t : table) (country : string) : cli_err + iso_choice :=
  let country_key := strip (u country) in
  let matches col := filter (fun r => ustr_eqb (lowered (cell_ustr (r col))) (lowered country_key))
                       (trows t) in
  let found : cli_err + option cell :=
    if mem_str "country_iso3" (tcols t) then
      match matches "country_iso3" with
      | r :: _ => inr (Some (r "country_iso3"))
      | [] =>
          if mem_str "country" (tcols t) then
            match matches "country" with
            | r :: _ => inr (Some (r "country_iso3"))
            | [] => inr None
            end
          else inl (CliKeyError "country")
      end
    else inr None in
  match found with
  | inl e => inl e
  | inr found =>
      let found := match found with
                   | Some CNull => if null_is_none then None else Some CNull
                   | f => f
                   end in
      match found with
      | Some c => inr (FromTable c)
      | None =>
          match to_iso3_map lower isalnum cased case_ignorable cc raw (VStr country_key) with
          | Some code => inr (FromResolver code)
          | None => inl (BadParameter ("Could not resolve '" ++ country
                          ++ "' to a country ISO3 code. Try passing the ISO3 code explicitly."))
          end
      end
  end.

End Forecast.

End Cli.

(** ** [ingest_csv] (data.py) after [read_csv] and the column renaming *)
Module Ingest.
Import Frame Resolver Utils Cli.

Definition prevalence_cols : list string :=
  ["prevalence_total"; "prevalence_male"; "prevalence_female";
   "prevalence_depression"; "prevalence_anxiety"].

(** Whether [astype("Int64")] accepts a float: it must be a whole number. *)
Definition is_integral (q : Q) : bool := Z.eqb (Z.rem (Qnum q) (Zpos (Qden q))) 0.

(** Whether the integer part of a number lies in the int64 range. *)
Definition fits_int64 (q : Q) : bool :=
  let z := Z.quot (Qnum q) (Zpos (Qden q)) in
  (- 2 ^ 63 <=? z)%Z && (z <? 2 ^ 63)%Z.

(** A code returned by [to_iso3], as a cell (ISO3 codes are ASCII). *)
Definition ustr_to_string (s : ustr) : string :=
  fold_right (fun n acc => String (ascii_of_N n) acc) EmptyString s.

Definition iso_cell (o : option ustr) : cell :=
  match o with Some code => CStr (ustr_to_string code) | None => CNull end.

Section Ingest.

(** [CANONICAL_COLUMNS] of config.py. *)
Variable canonical : list string.
(** The Unicode tables of [str.lower] and [str.isalnum] (see [Resolver]). *)
Variable lower : N -> list N.
Variable isalnum : N -> bool.
Variable cased : N -> bool.
Variable case_ignorable : N -> bool.
Variable parse : string -> option Q.
(** [astype(str)] of a number cell of the [country] column. *)
Variable float_str : Q -> string.
Variable cc : option (ustr -> pyobj).
Variable raw : list (ustr * ustr).

(** Lines 17-18: [df = df[[c for c in CANONICAL_COLUMNS if c in df.columns]].copy()]. *)
Definition keep_canonical (t : table) : table :=
  {| tcols := filter (fun c => mem_str c (tcols t)) canonical; trows := trows t |}.

(** Lines 20-21: [df["year"] = pd.to_numeric(df["year"], errors="coerce").astype("Int64")];
    the cast to int64 must give back the same value ([_safe_cast]), else it
    raises [TypeError]: on a number that is not whole, or outside the int64
    range (which numpy's cast turns into -2^63 on x86-64). *)
Definition coerce_year (t : table) : pyerr + table :=
  if mem_str "year" (tcols t) then
    if existsb (fun r => match to_numeric_cell parse (r "year") with
                         | CNum q => negb (is_integral q && fits_int64 q)
                         | _ => false
                         end) (trows t)
    then inl TypeError
    else inr (set_col t "year" (fun r => to_numeric_cell parse (r "year")))
  else inr t.

(** Lines 27-28: [df["country_iso3"] = to_iso3(df["country"])]; a missing
    cell read from CSV is NaN, which [astype(str)] prints "nan". *)
Definition add_iso3 (t : table) : table :=
  if mem_str "country" (tcols t)
  then set_col t "country_iso3"
         (fun r => iso_cell (to_iso3_map lower isalnum cased case_ignorable cc raw
                              (VStr (cell_ustr float_str false (r "country")))))
  else t.

(** [ingest_csv], lines 14-29, on the frame read and renamed. *)
Definition ingest_frame (t : table) : pyerr + table :=
  match derive_total t with
  | inl e => inl e
  | inr t1 =>
      match coerce_year (keep_canonical t1) with
      | inl e => inl e
      | inr t3 => inr (add_iso3 (ensure_numeric parse t3 prevalence_cols))
      end
  end.

End Ingest.

End Ingest.

(* ================================================================== *)
(** * Properties *)

Module CellFacts.
Import Frame.

Lemma cell_eqb_refl c : cell_eqb c c = true.
Proof.
  destruct c; simpl; [reflexivity | apply Qeq_bool_refl | apply String.eqb_refl].
Qed.

Lemma cells_eqb_refl l : cells_eqb l l = true.
Proof. induction l; simpl; [reflexivity | now rewrite cell_eqb_refl]. Qed.

Lemma ustr_eqb_refl_x s : Resolver.ustr_eqb s s = true.
Proof. induction s; simpl; [reflexivity | now rewrite N.eqb_refl]. Qed.

Lemma is_defect_oserror_x e : Reader.is_defect e = true -> Reader.is_oserror e = true.
Proof. destruct e; simpl; congruence. Qed.

Lemma filter_none_x {A} (f : A -> bool) l :
  forallb (fun x => negb (f x)) l = true -> filter f l = [].
Proof.
  induction l as [|x l IH]; simpl; [reflexivity|].
  intros H; apply andb_true_iff in H as [Hx Hl].
  destruct (f x); [discriminate | now apply IH].
Qed.

End CellFacts.

Module ReaderFacts.
Import Reader.

Example all_defect_run :
  read_parquet_safe all_defect_env None
  = (Err (defect_err 3), [Primary; Legacy; SingleFile; FastParquet]).
Proof. reflexivity. Qed.

End ReaderFacts.

Module ReaderProps.
Import Reader.

Lemma is_defect_oserror e : is_defect e = true -> is_oserror e = true.
Proof. destruct e; simpl; congruence. Qed.

(** C2 (counterexample): every strategy fails with the structural defect,
    yet the error raised is the single-file attempt's ([defect_err 3]), not
    the first attempt's ([defect_err 1]). *)
Lemma reader_all_defect_not_first_error :
  fst (read_parquet_safe all_defect_env None) <> Err (defect_err 1).
Proof. vm_compute. congruence. Qed.

(** C2 (amended): when pyarrow is importable and the primary, legacy-dataset
    and single-file reads all fail with the structural defect and the
    fastparquet read fails too, the reader re-raises the error of the
    single-file read (the third attempt), after trying all four strategies. *)
Lemma reader_all_defect_raises_single_file_error E cols e1 e2 e3 e4 :
  pyarrow_importable E = true ->
  primary E = Err e1 -> is_defect e1 = true ->
  legacy E = Err e2 -> is_defect e2 = true ->
  single_file E = Err e3 -> is_defect e3 = true ->
  fastparquet E = Err e4 ->
  read_parquet_safe E cols = (Err e3, [Primary; Legacy; SingleFile; FastParquet]).
Proof.
  intros Hpa Hp D1 Hl D2 Hs D3 Hf.
  pose proof (is_defect_oserror _ D1) as O1.
  pose proof (is_defect_oserror _ D2) as O2.
  pose proof (is_defect_oserror _ D3) as O3.
  unfold read_parquet_safe.
  rewrite Hp, O1, D1, Hpa, Hl.
  destruct e2; try discriminate O2.
  cbn -[is_defect]; rewrite D2; cbn -[is_defect is_oserror].
  rewrite Hs, O3, D3, Hf; reflexivity.
Qed.

Lemma reader_all_defect_raises_single_file_error_witness :
  fst (read_parquet_safe all_defect_env None) = Err (defect_err 3).
Proof.
  rewrite (reader_all_defect_raises_single_file_error all_defect_env None
             (defect_err 1) (defect_err 2) (defect_err 3) (defect_err 4));
    reflexivity.
Defined.

(** C6: a primary failure that does not carry the structural-defect
    signature is propagated as is, and no fallback strategy is attempted. *)
Lemma reader_non_defect_propagates E cols e :
  primary E = Err e -> is_defect e = false ->
  read_parquet_safe E cols = (Err e, [Primary]).
Proof.
  intros Hp D. unfold read_parquet_safe. rewrite Hp.
  destruct (is_oserror e) eqn:O; simpl; [rewrite D; reflexivity | reflexivity].
Qed.

Lemma reader_non_defect_propagates_witness :
  read_parquet_safe {| primary := Err (OSError 7 "No such file or directory");
                       pyarrow_importable := true; legacy := Ok [];
                       plain_table := Ok []; single_file := Ok [];
                       fastparquet := Ok [] |} None
  = (Err (OSError 7 "No such file or directory"), [Primary]).
Proof. apply reader_non_defect_propagates; reflexivity. Defined.

End ReaderProps.

Module ResolverProps.
Import Resolver.

Abbreviation nk := (normalize_key latin1_lower latin1_isalnum latin1_cased latin1_case_ignorable).
Abbreviation flk := (fallback_lookup latin1_lower latin1_isalnum latin1_cased latin1_case_ignorable).

Example nk_accented : nk cote_divoire_accented = (u "c" ++ [244%N] ++ u "tedivoire")%list.
Proof. reflexivity. Qed.

Example nk_plain : nk cote_divoire_plain = u "cotedivoire".
Proof. reflexivity. Qed.

Example nk_upper : nk (u "COTE-D'IVOIRE ") = u "cotedivoire".
Proof. reflexivity. Qed.

Lemma ustr_eqb_refl s : ustr_eqb s s = true.
Proof. induction s; simpl; [reflexivity | now rewrite N.eqb_refl]. Qed.

(** Without U+03A3, [str.lower] maps each code point on its own. *)
Lemma py_lower_from_no_sigma lower cased ci before s :
  ~ In 931%N s -> py_lower_from lower cased ci before s = flat_map lower s.
Proof.
  revert before; induction s as [|c s IH]; intros before H; [reflexivity|].
  cbn [py_lower_from flat_map].
  destruct (N.eqb_spec c 931) as [->|Hc]; [exfalso; apply H; now left|].
  rewrite IH; [reflexivity | intros Hin; apply H; now right].
Qed.

Lemma normalize_key_no_sigma lower isalnum cased ci s :
  ~ In 931%N s -> normalize_key lower isalnum cased ci s = filter isalnum (flat_map lower s).
Proof. intros H. unfold normalize_key, py_lower. now rewrite py_lower_from_no_sigma. Qed.

(** U+03A3 is lowered by its context (final sigma), so casing and spacing
    can change a key: "ΑΣ Β" gives "αςβ" but "ΑΣΒ" gives "ασβ", and "ΑΣ"
    gives "ας" but "Ασ" gives "ασ". *)
Example normalize_key_final_sigma :
  let nkg := normalize_key greek_lower greek_isalnum greek_cased latin1_case_ignorable in
  nkg [913; 931; 32; 914]%N = [945; 962; 946]%N
  /\ nkg [913; 931; 914]%N = [945; 963; 946]%N
  /\ nkg [913; 931]%N = [945; 962]%N
  /\ nkg [913; 963]%N = [945; 963]%N.
Proof. vm_compute. repeat split. Qed.

Lemma filter_none {A} (f : A -> bool) l :
  forallb (fun x => negb (f x)) l = true -> filter f l = [].
Proof.
  induction l as [|x l IH]; simpl; [reflexivity|].
  intros H; apply andb_true_iff in H as [Hx Hl].
  destruct (f x); [discriminate | now apply IH].
Qed.

Lemma variant_key lower isalnum s t :
  variant lower isalnum s t -> filter isalnum (flat_map lower s) = filter isalnum (flat_map lower t).
Proof.
  induction 1 as [s|a c c' b Hc|a c b Hc|s t _ IH|s t w _ IH1 _ IH2].
  - reflexivity.
  - rewrite !flat_map_app, !filter_app. cbn [flat_map]. now rewrite Hc.
  - rewrite !flat_map_app, !filter_app. cbn [flat_map].
    rewrite filter_app, (filter_none _ _ Hc). reflexivity.
  - now symmetry.
  - congruence.
Qed.

Lemma variant_cons lower isalnum x s t :
  variant lower isalnum s t -> variant lower isalnum (x :: s) (x :: t).
Proof.
  induction 1 as [s|a c c' b Hc|a c b Hc|s t _ IH|s t w _ IH1 _ IH2].
  - apply variant_refl.
  - exact (variant_case _ _ (x :: a) c c' b Hc).
  - exact (variant_punct _ _ (x :: a) c b Hc).
  - now apply variant_sym.
  - now apply (variant_trans _ _ _ (x :: t)).
Qed.

(** Names equal up to the case of each code point are variants. *)
Lemma variant_same_lower lower isalnum s t :
  Forall2 (fun c c' => lower c = lower c') s t -> variant lower isalnum s t.
Proof.
  induction 1 as [|c c' s t Hc _ IH]; [apply variant_refl|].
  apply (variant_trans _ _ _ (c' :: s)).
  - exact (variant_case _ _ [] c c' s Hc).
  - now apply variant_cons.
Qed.

(** C4 (counterexample): the normalized key keeps diacritics (U+00F4 is
    alphanumeric), so "Côte d'Ivoire" and "cote d ivoire" get different
    keys, and with a bundle spelling the name "Cote d'Ivoire" the fallback
    resolves the plain variant but not the accented one. *)
Lemma fallback_diacritic_variant_differs :
  nk cote_divoire_accented <> nk cote_divoire_plain
  /\ flk bundle_civ (VStr cote_divoire_plain) = Some (u "CIV")
  /\ flk bundle_civ (VStr cote_divoire_accented) = None.
Proof. split; [vm_compute; congruence | split; reflexivity]. Qed.

(** C4 (amended): whatever the bundled table, two names without the Greek
    capital sigma U+03A3 that differ only in casing, punctuation or spacing
    ([variant]) have the same normalized key, and so the fallback lookup
    returns the same result for both; diacritics are not stripped. *)
Lemma fallback_lookup_variant_invariant lower isalnum cased ci raw s t :
  variant lower isalnum s t -> ~ In 931%N s -> ~ In 931%N t ->
  fallback_lookup lower isalnum cased ci raw (VStr s) = fallback_lookup lower isalnum cased ci raw (VStr t).
Proof.
  intros H Hs Ht. unfold fallback_lookup.
  rewrite (normalize_key_no_sigma _ _ _ _ _ Hs), (normalize_key_no_sigma _ _ _ _ _ Ht).
  now rewrite (variant_key _ _ _ _ H).
Qed.

Lemma fallback_lookup_variant_invariant_witness :
  flk bundle_civ (VStr (u "COTE D'IVOIRE")) = flk bundle_civ (VStr (u "Cote d'Ivoire"))
  /\ flk bundle_civ (VStr (u "COTE D'IVOIRE")) = Some (u "CIV").
Proof.
  split; [|reflexivity].
  apply fallback_lookup_variant_invariant; [apply variant_same_lower | simpl; intuition discriminate ..].
  simpl; repeat (apply Forall2_cons; [reflexivity|]); apply Forall2_nil.
Defined.

(** Empty and whitespace-only strings resolve to [np.nan] ([None] here),
    whatever the converter and the bundled table. *)
Lemma to_iso3_blank_string lower isalnum cased ci cc raw s :
  strip s = [] -> to_iso3 lower isalnum cased ci cc raw [VStr s] = [None].
Proof. intros H. unfold to_iso3, to_iso3_map. simpl. now rewrite H. Qed.

(** The [isinstance(x, str)] guard of [_map] sends every non-string to the
    empty name and so to [np.nan] ... *)
Lemma to_iso3_map_non_string lower isalnum cased ci cc raw v :
  (forall s, v <> VStr s) -> to_iso3_map lower isalnum cased ci cc raw v = None.
Proof.
  intros H. destruct v as [s| | |]; [now destruct (H s) | reflexivity..].
Qed.

(** C7 (code_bug): ... but [to_iso3] applies [astype(str)] first, so that
    guard never sees a non-string: the integer 4 becomes the name "4",
    which country_converter reads as ISO numeric code 4, and the result is
    "AFG" instead of [np.nan]. *)
Lemma to_iso3_int_resolves :
  to_iso3 latin1_lower latin1_isalnum latin1_cased latin1_case_ignorable (Some coco_numeric) [] [VInt 4]
  = [Some (u "AFG")].
Proof. reflexivity. Qed.

End ResolverProps.

Module IngestCleanProps.
Import Frame CellFacts.

Example derive_total_10_20 :
  match derive_total {| tcols := ["prevalence_male"; "prevalence_female"];
                        trows := [mkrow [("prevalence_male", CNum 10); ("prevalence_female", CNum 20)]] |} with
  | inr t' => map (fun r => r "prevalence_total") (trows t')
  | inl _ => []
  end = [CNum 15].
Proof. reflexivity. Qed.

(** C1 (counterexample): with [prevalence_male = 10] and
    [prevalence_female] missing, the derived total is 10, not missing:
    [mean(axis=1)] skips missing operands. *)
Lemma derive_total_single_sided :
  match derive_total {| tcols := ["prevalence_male"; "prevalence_female"];
                        trows := [mkrow [("prevalence_male", CNum 10); ("prevalence_female", CNull)]] |} with
  | inr t' => map (fun r => r "prevalence_total") (trows t')
  | inl _ => []
  end = [CNum 10].
Proof. reflexivity. Qed.

Lemma mean_skipna_pair m f :
  is_str m = false -> is_str f = false ->
  cell_eqb (mean_skipna [m; f])
    (match m, f with
     | CNum a, CNum b => CNum ((a + b) / 2)
     | CNum a, _ => CNum a
     | _, CNum b => CNum b
     | _, _ => CNull
     end) = true.
Proof.
  intros Hm Hf.
  destruct m as [|a|]; destruct f as [|b|]; try discriminate; unfold mean_skipna, cell_eqb;
    cbn [filter is_num map num_of fold_right length]; try reflexivity;
    apply Qeq_bool_iff; rewrite Qred_correct; unfold Qdiv; rewrite Qplus_0_r.
  - now rewrite Qmult_1_r.
  - now rewrite Qmult_1_r.
  - reflexivity.
Qed.

(** C1 (amended): when [prevalence_total] is absent and both sex-specific
    columns are present (holding numbers or missing values), the derived
    total of each row is the mean of the operands that are present: the
    arithmetic mean when both are, the one present value when only one is,
    and missing only when both are; no other cell changes. *)
Lemma derive_total_mean_of_present t :
  mem_str "prevalence_total" (tcols t) = false ->
  mem_str "prevalence_male" (tcols t) = true ->
  mem_str "prevalence_female" (tcols t) = true ->
  existsb (fun r => is_str (r "prevalence_male") || is_str (r "prevalence_female")) (trows t) = false ->
  exists t', derive_total t = inr t'
    /\ tcols t' = (tcols t ++ ["prevalence_total"])%list
    /\ Forall2 (fun r r' =>
         cell_eqb (r' "prevalence_total")
           (match r "prevalence_male", r "prevalence_female" with
            | CNum a, CNum b => CNum ((a + b) / 2)
            | CNum a, _ => CNum a
            | _, CNum b => CNum b
            | _, _ => CNull
            end) = true
         /\ forall c, c <> "prevalence_total" -> r' c = r c)
       (trows t) (trows t').
Proof.
  intros Ht Hm Hf Hs. unfold derive_total. rewrite Ht, Hm, Hf, Hs. simpl.
  eexists; split; [reflexivity|]. simpl. split; [reflexivity|].
  induction (trows t) as [|r rs IH]; simpl in *; constructor.
  - apply orb_false_iff in Hs as [Hs _]. apply orb_false_iff in Hs as [Hsm Hsf].
    split.
    + now apply mean_skipna_pair.
    + intros c Hc. destruct (String.eqb_spec c "prevalence_total"); [contradiction | reflexivity].
  - apply IH. now apply orb_false_iff in Hs as [_ Hs].
Qed.

Lemma derive_total_mean_of_present_witness :
  exists t', derive_total {| tcols := ["prevalence_male"; "prevalence_female"];
                             trows := [mkrow [("prevalence_male", CNum 10); ("prevalence_female", CNull)]] |} = inr t'.
Proof.
  destruct (derive_total_mean_of_present
              {| tcols := ["prevalence_male"; "prevalence_female"];
                 trows := [mkrow [("prevalence_male", CNum 10); ("prevalence_female", CNull)]] |})
    as [t' [H _]]; try reflexivity.
  exists t'; exact H.
Defined.

Lemma dedup_aux_incl subset seen rows : incl (dedup_aux subset seen rows) rows.
Proof.
  revert seen; induction rows as [|r rs IH]; intros seen; simpl; [apply incl_refl|].
  destruct (existsb _ seen).
  - apply incl_tl, IH.
  - apply incl_cons; [now left | apply incl_tl, IH].
Qed.

(** A kept row differs, on the subset, from everything seen before it. *)
Lemma dedup_aux_fresh subset seen rows r :
  In r (dedup_aux subset seen rows) ->
  forall p, In p seen -> cells_eqb (proj subset r) p = false.
Proof.
  revert seen; induction rows as [|r0 rs IH]; intros seen Hin p Hp; simpl in Hin; [contradiction|].
  destruct (existsb (cells_eqb (proj subset r0)) seen) eqn:E.
  - exact (IH seen Hin p Hp).
  - destruct Hin as [->|Hin].
    + destruct (cells_eqb (proj subset r) p) eqn:Ep; [|reflexivity].
      assert (existsb (cells_eqb (proj subset r)) seen = true) as C
        by (apply existsb_exists; now exists p).
      congruence.
    + apply (IH _ Hin); now right.
Qed.

Lemma dedup_aux_pairwise subset seen rows :
  ForallOrdPairs (fun r1 r2 => cells_eqb (proj subset r2) (proj subset r1) = false)
    (dedup_aux subset seen rows).
Proof.
  revert seen; induction rows as [|r rs IH]; intros seen; simpl; [constructor|].
  destruct (existsb _ seen); [apply IH|].
  constructor; [|apply IH].
  apply Forall_forall. intros r2 Hr2.
  apply (dedup_aux_fresh _ _ _ _ Hr2); now left.
Qed.

Lemma dedup_aux_cover subset seen rows r :
  In r rows ->
  (exists p, In p seen /\ cells_eqb (proj subset r) p = true)
  \/ exists r', In r' (dedup_aux subset seen rows) /\ cells_eqb (proj subset r) (proj subset r') = true.
Proof.
  revert seen; induction rows as [|r0 rs IH]; intros seen Hin; [contradiction|].
  simpl. destruct Hin as [->|Hin].
  - destruct (existsb (cells_eqb (proj subset r)) seen) eqn:E.
    + left. now apply existsb_exists in E.
    + right. exists r. split; [now left | apply cells_eqb_refl].
  - destruct (existsb (cells_eqb (proj subset r0)) seen) eqn:E.
    + now apply IH.
    + destruct (IH (proj subset r0 :: seen) Hin) as [[p [[<-|Hp] Hq]]|[r' [Hr' Hq]]].
      * right. exists r0. split; [now left | exact Hq].
      * left. now exists p.
      * right. exists r'. split; [now right | exact Hq].
Qed.

Lemma cell_eqb_sym a b : cell_eqb a b = cell_eqb b a.
Proof.
  destruct a as [|x|x], b as [|y|y]; simpl; try reflexivity.
  - destruct (Qeq_bool x y) eqn:E1, (Qeq_bool y x) eqn:E2; try reflexivity.
    + apply Qeq_bool_iff in E1. apply Qeq_sym, Qeq_bool_iff in E1. congruence.
    + apply Qeq_bool_iff in E2. apply Qeq_sym, Qeq_bool_iff in E2. congruence.
  - apply String.eqb_sym.
Qed.

Lemma cells_eqb_sym a b : cells_eqb a b = cells_eqb b a.
Proof.
  revert b; induction a as [|x a IH]; intros [|y b]; simpl; try reflexivity.
  now rewrite cell_eqb_sym, IH.
Qed.

Lemma cell_eqb_trans a b c : cell_eqb a b = true -> cell_eqb b c = true -> cell_eqb a c = true.
Proof.
  destruct a as [|x|x], b as [|y|y], c as [|z|z]; simpl; try discriminate; try reflexivity.
  - intros H1 H2. apply Qeq_bool_iff in H1, H2. apply Qeq_bool_iff. now rewrite H1.
  - intros H1 H2. apply String.eqb_eq in H1, H2. subst. apply String.eqb_refl.
Qed.

Lemma cells_eqb_trans a b c : cells_eqb a b = true -> cells_eqb b c = true -> cells_eqb a c = true.
Proof.
  revert b c; induction a as [|x a IH]; intros [|y b] [|z c]; simpl; try discriminate; try reflexivity.
  intros H1 H2. apply andb_true_iff in H1 as [H1 H1'], H2 as [H2 H2'].
  rewrite (cell_eqb_trans _ _ _ H1 H2). simpl. exact (IH _ _ H1' H2').
Qed.

(** [dedup_aux] keeps a row exactly when no row before it (kept or not)
    agrees with it on the subset, provided [seen] summarises the rows
    before. *)
Lemma dedup_aux_first_occurrence subset pre rows seen :
  (forall x, existsb (cells_eqb (proj subset x)) seen
             = existsb (fun r0 => cells_eqb (proj subset r0) (proj subset x)) pre) ->
  dedup_aux subset seen rows
  = map snd (filter (fun ir : nat * row =>
               forallb (fun r0 => negb (cells_eqb (proj subset r0) (proj subset (snd ir))))
                       (firstn (fst ir) (pre ++ rows)))
             (combine (seq (length pre) (length rows)) rows)).
Proof.
  revert pre seen; induction rows as [|r rs IH]; intros pre seen Hinv; [reflexivity|].
  cbn [length seq combine filter fst snd].
  replace (firstn (length pre) (pre ++ r :: rs)) with pre
    by (rewrite firstn_app, Nat.sub_diag, firstn_all; simpl; now rewrite app_nil_r).
  assert (forallb (fun r0 => negb (cells_eqb (proj subset r0) (proj subset r))) pre
          = negb (existsb (cells_eqb (proj subset r)) seen)) as Hh.
  { rewrite Hinv. clear. induction pre as [|a pre IH]; simpl; [reflexivity|].
    rewrite IH. now destruct (cells_eqb (proj subset a) (proj subset r)). }
  rewrite Hh. replace (pre ++ r :: rs)%list with ((pre ++ [r]) ++ rs)%list
    by (now rewrite <- app_assoc).
  replace (S (length pre)) with (length (pre ++ [r])) by (rewrite length_app; simpl; lia).
  simpl dedup_aux.
  destruct (existsb (cells_eqb (proj subset r)) seen) eqn:E; simpl.
  - apply IH. intros x. rewrite existsb_app, Hinv. simpl. rewrite orb_false_r.
    destruct (cells_eqb (proj subset r) (proj subset x)) eqn:Ex; [|now rewrite orb_false_r].
    rewrite orb_true_r. rewrite <- Hinv.
    apply existsb_exists in E as [p [Hp Hq]]. apply existsb_exists. exists p. split; [exact Hp|].
    rewrite cells_eqb_sym in Ex. exact (cells_eqb_trans _ _ _ Ex Hq).
  - f_equal. apply IH. intros x. rewrite existsb_app, <- Hinv. simpl.
    rewrite orb_false_r, orb_comm. now rewrite cells_eqb_sym.
Qed.

(** C8 (counterexample): two rows that differ only in [sex] ("male" vs
    "female") are collapsed to one, because [sex] is left out of the
    deduplication subset. *)
Lemma clean_collapses_sex_pair :
  match clean {| tcols := ["country_iso3"; "year"; "sex"; "prevalence_total"];
                 trows := [mkrow [("country_iso3", CStr "FRA"); ("year", CNum 2020);
                                  ("sex", CStr "male"); ("prevalence_total", CNum 5)];
                           mkrow [("country_iso3", CStr "FRA"); ("year", CNum 2020);
                                  ("sex", CStr "female"); ("prevalence_total", CNum 5)]] |} with
  | inr t' => map (fun r => r "sex") (trows t')
  | inl _ => []
  end = [CStr "male"].
Proof. reflexivity. Qed.

(** C8 (amended): when [country_iso3] and [year] are columns, [clean]
    keeps the columns, drops the rows missing either key, and among the
    remaining rows keeps exactly those that agree, on every column other
    than [sex], with no earlier remaining row (first occurrence kept, in
    order). Hence no two kept rows agree outside [sex] (rows identical
    including [sex], and rows identical except for [sex], are both
    collapsed), and every remaining input row agrees outside [sex] with
    some kept row. *)
Lemma clean_dedup_ignores_sex t :
  mem_str "country_iso3" (tcols t) = true -> mem_str "year" (tcols t) = true ->
  exists t', clean t = inr t'
    /\ tcols t' = tcols t
    /\ trows t' = map snd (filter (fun ir : nat * row =>
                     forallb (fun r0 => negb (cells_eqb (proj (dedup_subset t) r0)
                                                        (proj (dedup_subset t) (snd ir))))
                             (firstn (fst ir) (filter clean_valid (trows t))))
                   (combine (seq 0 (length (filter clean_valid (trows t))))
                            (filter clean_valid (trows t))))
    /\ incl (trows t') (filter clean_valid (trows t))
    /\ ForallOrdPairs (fun r1 r2 => cells_eqb (proj (dedup_subset t) r2) (proj (dedup_subset t) r1) = false)
         (trows t')
    /\ (forall r, In r (trows t) -> clean_valid r = true ->
          exists r', In r' (trows t') /\ cells_eqb (proj (dedup_subset t) r) (proj (dedup_subset t) r') = true).
Proof.
  intros Hc Hy. unfold clean. rewrite Hc, Hy. simpl.
  eexists; split; [reflexivity|]. simpl. split; [reflexivity|]. split; [|split; [|split]].
  - unfold drop_duplicates.
    apply (dedup_aux_first_occurrence (dedup_subset t) [] (filter clean_valid (trows t)) []).
    reflexivity.
  - apply dedup_aux_incl.
  - apply dedup_aux_pairwise.
  - intros r Hr Hv.
    assert (In r (filter clean_valid (trows t))) as Hf by (apply filter_In; now split).
    destruct (dedup_aux_cover (dedup_subset t) [] _ r Hf) as [[p [[] _]]|H]; exact H.
Qed.

Definition clean_sample : table :=
  {| tcols := ["country_iso3"; "year"; "sex"; "prevalence_total"];
     trows := [mkrow [("country_iso3", CStr "FRA"); ("year", CNum 2020);
                      ("sex", CStr "male"); ("prevalence_total", CNum 5)];
               mkrow [("country_iso3", CStr "FRA"); ("year", CNum 2020);
                      ("sex", CStr "female"); ("prevalence_total", CNum 5)];
               mkrow [("country_iso3", CStr "FRA"); ("year", CNum 2021);
                      ("sex", CStr "female"); ("prevalence_total", CNum 7)];
               mkrow [("year", CNum 2022); ("sex", CStr "male"); ("prevalence_total", CNum 7)];
               mkrow [("country_iso3", CStr "FRA"); ("year", CNum 2021);
                      ("sex", CStr "male"); ("prevalence_total", CNum 7)]] |}.

Lemma clean_dedup_ignores_sex_witness :
  exists t', clean clean_sample = inr t'
    /\ map (fun r => (r "year", r "sex")) (trows t')
       = [(CNum 2020, CStr "male"); (CNum 2021, CStr "female")].
Proof.
  destruct (clean_dedup_ignores_sex clean_sample) as [t' [H1 [_ [H3 _]]]]; try reflexivity.
  exists t'. split; [exact H1|]. rewrite H3. vm_compute. reflexivity.
Defined.

End IngestCleanProps.

Module JoinProps.
Import Frame.

Lemma find_all_false {A} (f : A -> bool) l :
  forallb (fun x => negb (f x)) l = true -> find f l = None.
Proof.
  induction l as [|x l IH]; simpl; [reflexivity|].
  intros H; apply andb_true_iff in H as [Hx Hl].
  destruct (f x); [discriminate | now apply IH].
Qed.



(** A key that labels no column, or several columns, of either table
    makes [key_error] report an error. *)
Lemma key_error_some base ext on c :
  In c on ->
  length (filter (String.eqb c) (tcols ext)) <> 1%nat
  \/ length (filter (String.eqb c) (tcols base)) <> 1%nat ->
  exists e, key_error base ext on = Some e.
Proof.
  induction on as [|c0 cs IH]; intros Hin Hbad; [destruct Hin|]. cbn [key_error].
  destruct (label_error ext c0) as [e|] eqn:Le; [now exists e|].
  destruct (label_error base c0) as [e|] eqn:Lb; [now exists e|].
  destruct Hin as [->|Hin]; [|now apply IH].
  exfalso. unfold label_error in Le, Lb.
  destruct Hbad as [H|H].
  - destruct (length (filter (String.eqb c) (tcols ext))) as [|[|]]; congruence.
  - destruct (length (filter (String.eqb c) (tcols base))) as [|[|]]; congruence.
Qed.




End JoinProps.

Module GapProps.
Import Frame Gap CellFacts.

Example long_shape_gap :
  match gender_gap {| tcols := ["country"; "country_iso3"; "year"; "sex"; "prevalence_total"];
                      trows := [mkrow [("country", CStr "X"); ("country_iso3", CStr "XXX");
                                       ("year", CNum 2020); ("sex", CStr "Male"); ("prevalence_total", CNum 10)];
                                mkrow [("country", CStr "X"); ("country_iso3", CStr "XXX");
                                       ("year", CNum 2020); ("sex", CStr "Female"); ("prevalence_total", CNum 16)]] |} with
  | inr g => (gnames g, map snd (grows g))
  | inl _ => ([], [])
  end = (["prevalence_total_gap_fm"], [[CNum 6]]).
Proof. reflexivity. Qed.

Example wide_shape_gap :
  match gender_gap {| tcols := ["country"; "country_iso3"; "year"; "dep_male"; "dep_female"];
                      trows := [mkrow [("country", CStr "X"); ("country_iso3", CStr "XXX");
                                       ("year", CNum 2020); ("dep_male", CNum 4); ("dep_female", CNum 10)]] |} with
  | inr g => (gnames g, map snd (grows g))
  | inl _ => ([], [])
  end = (["dep_gap_fm"], [[CNum 6]]).
Proof. reflexivity. Qed.

Example wide_gap_name_prevalence : wide_gap_name "prevalence_male" = "prevalence_gap_fm".
Proof. reflexivity. Qed.

Example wide_gap_name_double_us : wide_gap_name "prevalence__male" = "prevalence_gap_fm".
Proof. reflexivity. Qed.

Example wide_gap_name_bare : wide_gap_name "_male" = "_gap_fm".
Proof. reflexivity. Qed.

Lemma first_missing_some cols :
  (exists k, In k keys /\ mem_str k cols = false) ->
  exists c, first_missing cols keys = Some c /\ In c keys.
Proof.
  intros [k [Hk Hm]]. unfold first_missing.
  destruct (find (fun c => negb (mem_str c cols)) keys) as [c|] eqn:F.
  - exists c. split; [reflexivity|]. now apply (find_some _ _ F).
  - apply (find_none _ _ F) in Hk. now rewrite Hm in Hk.
Qed.

Lemma long_loop_key_error t names produced out c :
  first_missing (tcols t) keys = Some c ->
  (exists name, In name names /\ mem_str name (tcols t) = true) ->
  long_loop t names produced out = inl (KeyError c).
Proof.
  intros Hc. revert produced out.
  induction names as [|n ns IH]; intros produced out [name [Hin Hm]]; [destruct Hin|].
  simpl. destruct (mem_str n (tcols t)) eqn:En.
  - unfold pivot_gap. now rewrite Hc.
  - destruct Hin as [->|Hin]; [congruence|].
    apply IH. now exists name.
Qed.

Lemma long_loop_none_present t names produced out :
  (forall name, In name names -> mem_str name (tcols t) = false) ->
  long_loop t names produced out = inr (out, produced).
Proof.
  revert produced out.
  induction names as [|n ns IH]; intros produced out H; simpl; [reflexivity|].
  rewrite (H n (or_introl eq_refl)). apply IH. intros; apply H; now right.
Qed.

Lemma wide_loop_key_error t ms out c :
  first_missing (tcols t) keys = Some c ->
  (exists mc, In mc ms /\ mem_str (drop_last5 mc ++ "_female") (tcols t) = true) ->
  wide_loop t ms [] out = inl (KeyError c).
Proof.
  intros Hc. revert out.
  induction ms as [|m ms IH]; intros out [mc [Hin Hf]]; [destruct Hin|].
  cbn [wide_loop]. destruct (mem_str (drop_last5 m ++ "_female") (tcols t)) eqn:Ef;
    cbn [negb mem_str existsb].
  - now rewrite Hc.
  - destruct Hin as [->|Hin]; [congruence|].
    apply IH. now exists mc.
Qed.

(** C9: a table with a sex-stratification signal (a [sex] column together
    with one of the three indicators, or a [*_male] column with its
    [*_female] sibling) that lacks one of the key columns [country],
    [country_iso3], [year] makes [gender_gap] raise [KeyError] for a key
    column, not the [ValueError] of "no sex-stratified columns" and not an
    empty result. *)
Lemma gender_gap_missing_key_raises t :
  ((mem_str "sex" (tcols t) = true
    /\ exists name, In name indicators /\ mem_str name (tcols t) = true)
   \/ exists mc, In mc (tcols t) /\ ends_with "_male" mc = true
                 /\ mem_str (drop_last5 mc ++ "_female") (tcols t) = true) ->
  (exists k, In k keys /\ mem_str k (tcols t) = false) ->
  exists c, gender_gap t = inl (KeyError c) /\ In c keys.
Proof.
  intros Hsig Hk. destruct (first_missing_some _ Hk) as [c [Hc Hck]].
  exists c. split; [|exact Hck].
  assert (gender_gap_parts t = inl (KeyError c)) as Hp.
  { unfold gender_gap_parts.
    destruct (mem_str "sex" (tcols t)) eqn:Es.
    - destruct (existsb (fun n => mem_str n (tcols t)) indicators) eqn:Ei.
      + apply existsb_exists in Ei.
        now rewrite (long_loop_key_error _ _ _ _ _ Hc Ei).
      + rewrite long_loop_none_present.
        2:{ intros name Hn. destruct (mem_str name (tcols t)) eqn:E; [|reflexivity].
            assert (existsb (fun n => mem_str n (tcols t)) indicators = true)
              by (apply existsb_exists; now exists name).
            congruence. }
        destruct Hsig as [[_ [name [Hn Hm]]]|[mc [Hin [He Hf]]]].
        * assert (existsb (fun n => mem_str n (tcols t)) indicators = true)
            by (apply existsb_exists; now exists name).
          congruence.
        * apply wide_loop_key_error; [exact Hc|]. exists mc. split; [|exact Hf].
          apply filter_In. now split.
    - destruct Hsig as [[Hs _]|[mc [Hin [He Hf]]]]; [congruence|].
      apply wide_loop_key_error; [exact Hc|]. exists mc. split; [|exact Hf].
      apply filter_In. now split. }
  unfold gender_gap. now rewrite Hp.
Qed.

Lemma gender_gap_missing_key_raises_witness :
  exists c, gender_gap {| tcols := ["country"; "year"; "dep_male"; "dep_female"];
                          trows := [mkrow [("country", CStr "X"); ("year", CNum 2020);
                                           ("dep_male", CNum 4); ("dep_female", CNum 10)]] |}
            = inl (KeyError c) /\ In c keys.
Proof.
  apply gender_gap_missing_key_raises.
  - right. exists "dep_male". split; [simpl; tauto | split; reflexivity].
  - exists "country_iso3". split; [simpl; tauto | reflexivity].
Defined.




Lemma mem_str_true_iff x l : mem_str x l = true <-> In x l.
Proof.
  unfold mem_str. rewrite existsb_exists. split.
  - intros [y [Hy Hxy]]. apply String.eqb_eq in Hxy. now subst.
  - intros H. exists x. split; [exact H | apply String.eqb_refl].
Qed.






Lemma merge_outer_rows_inv l q k vs :
  In (k, vs) (grows (merge_outer l q)) ->
  (exists vs0 x, In (k, vs0) (grows l) /\ vs = (vs0 ++ [x])%list
     /\ (x = CNull \/ exists kq, In (kq, x) (prows q) /\ cells_eqb k kq = true))
  \/ (exists c, In (k, c) (prows q) /\ vs = (repeat CNull (length (gnames l)) ++ [c])%list).
Proof.
  unfold merge_outer. cbn [grows]. intros H. apply in_app_or in H as [H|H].
  - apply in_flat_map in H as [[k0 vs0] [Hkv H]]. cbn [fst snd] in H.
    destruct (filter (fun kc => cells_eqb k0 (fst kc)) (prows q)) as [|m ms] eqn:F.
    + destruct H as [H|[]]. injection H as <- <-. left. exists vs0, CNull. auto.
    + apply in_map_iff in H as [[kq x] [Heq Hkc]]. injection Heq as <- <-.
      left. exists vs0, x. split; [exact Hkv|]. split; [reflexivity|].
      right. exists kq. rewrite <- F in Hkc. apply filter_In in Hkc. exact Hkc.
  - apply in_map_iff in H as [[kq c] [Heq Hkc]]. apply filter_In in Hkc as [Hkc _].
    injection Heq as <- <-. right. now exists c.
Qed.

Lemma merge_outer_left_kept l q k vs :
  In (k, vs) (grows l) -> exists vs', In (k, vs') (grows (merge_outer l q)).
Proof.
  intros H. unfold merge_outer. cbn [grows].
  destruct (filter (fun kc => cells_eqb k (fst kc)) (prows q)) as [|m ms] eqn:F.
  - exists (vs ++ [CNull])%list. apply in_or_app. left. apply in_flat_map.
    exists (k, vs). split; [exact H|]. cbn [fst snd]. rewrite F. now left.
  - exists (vs ++ [snd m])%list. apply in_or_app. left. apply in_flat_map.
    exists (k, vs). split; [exact H|]. cbn [fst snd]. rewrite F. now left.
Qed.

Lemma merge_outer_right_covered l q k c :
  In (k, c) (prows q) ->
  exists k' vs', In (k', vs') (grows (merge_outer l q)) /\ cells_eqb k' k = true.
Proof.
  intros H. unfold merge_outer. cbn [grows].
  destruct (existsb (fun kv => cells_eqb (fst kv) k) (grows l)) eqn:E.
  - apply existsb_exists in E as [[k0 vs0] [Hkv Hq]]. cbn [fst] in Hq.
    exists k0, (vs0 ++ [c])%list. split; [|exact Hq].
    apply in_or_app. left. apply in_flat_map. exists (k0, vs0). split; [exact Hkv|].
    cbn [fst snd].
    assert (In (k, c) (filter (fun kc => cells_eqb k0 (fst kc)) (prows q))) as Hf
      by (apply filter_In; now split).
    destruct (filter (fun kc => cells_eqb k0 (fst kc)) (prows q)) as [|m ms]; [destruct Hf|].
    apply in_map_iff. exists (k, c). split; [reflexivity | exact Hf].
  - exists k, (repeat CNull (length (gnames l)) ++ [c])%list. split; [|apply cells_eqb_refl].
    apply in_or_app. right. apply in_map_iff. exists (k, c). split; [reflexivity|].
    apply filter_In. split; [exact H|]. cbn [fst]. now rewrite E.
Qed.

Lemma merge_inv_init p : merge_inv (gtable_of p) [p].
Proof.
  unfold merge_inv, gtable_of. cbn [gnames grows]. repeat split.
  - intros k vs H. apply in_map_iff in H as [[k0 c] [Heq _]]. now injection Heq as <- <-.
  - intros k vs H. apply in_map_iff in H as [[k0 c] [Heq Hin]]. injection Heq as <- <-.
    exists p, c. split; [now left | exact Hin].
  - intros q k c [<-|[]] Hin. exists k, [c]. split; [|apply cells_eqb_refl].
    apply in_map_iff. exists (k, c). split; [reflexivity | exact Hin].
  - intros k vs j c H Hj Hc. apply in_map_iff in H as [[k0 c0] [Heq Hin]].
    injection Heq as <- <-. destruct j as [|[|j]]; cbn in Hj; try discriminate.
    injection Hj as <-. exists p, k0. split; [reflexivity|]. split; [exact Hin | apply cells_eqb_refl].
Qed.

Lemma merge_inv_step l qs q :
  merge_inv l qs -> merge_inv (merge_outer l q) (qs ++ [q])%list.
Proof.
  intros (I1 & I2 & I3 & I4 & I5).
  assert (Hw : length (gnames l) = length qs) by (rewrite I1; apply length_map).
  unfold merge_inv. split; [|split; [|split; [|split]]].
  - unfold merge_outer. cbn [gnames]. rewrite I1, map_app. reflexivity.
  - intros k vs H. rewrite length_app. cbn [length].
    destruct (merge_outer_rows_inv _ _ _ _ H) as [(vs0 & x & Hkv & -> & _)|(c & _ & ->)].
    + rewrite length_app, (I2 _ _ Hkv). reflexivity.
    + rewrite length_app, repeat_length, Hw. reflexivity.
  - intros k vs H.
    destruct (merge_outer_rows_inv _ _ _ _ H) as [(vs0 & x & Hkv & _ & _)|(c & Hc & _)].
    + destruct (I3 _ _ Hkv) as (q' & c & Hq' & Hc). exists q', c.
      split; [apply in_or_app; now left | exact Hc].
    + exists q, c. split; [apply in_or_app; right; now left | exact Hc].
  - intros q' k c Hq' Hc. apply in_app_or in Hq' as [Hq'|[<-|[]]].
    + destruct (I4 _ _ _ Hq' Hc) as (k' & vs & Hkv & Hk).
      destruct (merge_outer_left_kept _ q _ _ Hkv) as [vs' Hvs'].
      now exists k', vs'.
    + exact (merge_outer_right_covered _ _ _ _ Hc).
  - intros k vs j c H Hj Hc.
    destruct (merge_outer_rows_inv _ _ _ _ H) as [(vs0 & x & Hkv & -> & Hx)|(c' & Hc' & ->)].
    + pose proof (I2 _ _ Hkv) as Hlen.
      destruct (Nat.lt_ge_cases j (length vs0)) as [Hlt|Hge].
      * rewrite nth_error_app1 in Hj by exact Hlt.
        destruct (I5 _ _ _ _ Hkv Hj Hc) as (q' & kq & Hq' & Hin & Hk).
        exists q', kq. split; [|split; assumption].
        rewrite nth_error_app1 by lia.
        exact Hq'.
      * rewrite nth_error_app2 in Hj by exact Hge.
        destruct (j - length vs0)%nat as [|i] eqn:Ei; cbn in Hj; [|destruct i; discriminate].
        injection Hj as ->. destruct Hx as [->|(kq & Hin & Hk)]; [contradiction|].
        exists q, kq. split; [|split; assumption].
        rewrite nth_error_app2 by lia. now replace (j - length qs)%nat with 0%nat by lia.
    + destruct (Nat.lt_ge_cases j (length (gnames l))) as [Hlt|Hge].
      * exfalso. rewrite nth_error_app1 in Hj by (rewrite repeat_length; exact Hlt).
        apply nth_error_In, repeat_spec in Hj. contradiction.
      * rewrite nth_error_app2 in Hj by (rewrite repeat_length; exact Hge).
        rewrite repeat_length in Hj.
        destruct (j - length (gnames l))%nat as [|i] eqn:Ei; cbn in Hj; [|destruct i; discriminate].
        injection Hj as ->. exists q, k. split; [|split; [exact Hc' | apply cells_eqb_refl]].
        rewrite nth_error_app2 by lia. now replace (j - length qs)%nat with 0%nat by lia.
Qed.

Lemma merge_fold_inv ps : forall l qs,
  merge_inv l qs -> merge_inv (fold_left merge_outer ps l) (qs ++ ps)%list.
Proof.
  induction ps as [|q ps IH]; intros l qs H; cbn [fold_left].
  - now rewrite app_nil_r.
  - replace (qs ++ q :: ps)%list with ((qs ++ [q]) ++ ps)%list by now rewrite <- app_assoc.
    apply IH, merge_inv_step, H.
Qed.

Lemma merge_parts_inv p ps : merge_inv (merge_parts p ps) (p :: ps).
Proof. exact (merge_fold_inv ps _ [p] (merge_inv_init p)). Qed.

Example merge_coverage_2019_2021 :
  match gender_gap
          {| tcols := ["country"; "country_iso3"; "year"; "sex"; "prevalence_total"; "prevalence_depression"];
             trows := [mkrow [("country", CStr "X"); ("country_iso3", CStr "XXX"); ("year", CNum 2019);
                              ("sex", CStr "male"); ("prevalence_total", CNum 1)];
                       mkrow [("country", CStr "X"); ("country_iso3", CStr "XXX"); ("year", CNum 2019);
                              ("sex", CStr "female"); ("prevalence_total", CNum 2)];
                       mkrow [("country", CStr "X"); ("country_iso3", CStr "XXX"); ("year", CNum 2020);
                              ("sex", CStr "male"); ("prevalence_total", CNum 3); ("prevalence_depression", CNum 5)];
                       mkrow [("country", CStr "X"); ("country_iso3", CStr "XXX"); ("year", CNum 2020);
                              ("sex", CStr "female"); ("prevalence_total", CNum 4); ("prevalence_depression", CNum 7)];
                       mkrow [("country", CStr "X"); ("country_iso3", CStr "XXX"); ("year", CNum 2021);
                              ("sex", CStr "male"); ("prevalence_depression", CNum 1)];
                       mkrow [("country", CStr "X"); ("country_iso3", CStr "XXX"); ("year", CNum 2021);
                              ("sex", CStr "female"); ("prevalence_depression", CNum 2)]] |} with
  | inr g => (gnames g, map (fun kv => (nth 2 (fst kv) CNull, snd kv)) (grows g))
  | inl _ => ([], [])
  end
  = (["prevalence_total_gap_fm"; "prevalence_depression_gap_fm"],
     [(CNum 2019, [CNum 1; CNull]); (CNum 2020, [CNum 1; CNum 2]); (CNum 2021, [CNull; CNum 1])]).
Proof. reflexivity. Qed.




End GapProps.

Module ReaderExtra.
Import Reader CellFacts.

(** When the legacy-dataset call raises [TypeError] (a pyarrow without
    [use_legacy_dataset]), the retry runs inside that handler: whatever it
    raises, even the structural defect, is propagated as is, and neither the
    single-file read nor fastparquet is attempted. *)
Lemma reader_typeerror_retry_is_last E cols e1 n e :
  pyarrow_importable E = true ->
  primary E = Err e1 -> is_defect e1 = true ->
  legacy E = Err (TypeError n) -> plain_table E = Err e ->
  read_parquet_safe E cols = (Err e, [Primary; Legacy; PlainTable]).
Proof.
  intros Hpa Hp D1 Hl Hr. unfold read_parquet_safe.
  now rewrite Hp, (is_defect_oserror_x _ D1), D1, Hpa, Hl, Hr.
Qed.

Lemma reader_typeerror_retry_is_last_witness :
  read_parquet_safe {| primary := Err (defect_err 1); pyarrow_importable := true;
                       legacy := Err (TypeError 2); plain_table := Err (defect_err 3);
                       single_file := Ok []; fastparquet := Ok [] |} None
  = (Err (defect_err 3), [Primary; Legacy; PlainTable]).
Proof. apply (reader_typeerror_retry_is_last _ _ (defect_err 1) 2); reflexivity. Defined.

(** Without pyarrow the fallback chain stops at once and the primary
    read's error is re-raised ([raise err from exc]). *)
Lemma reader_no_pyarrow_reraises_primary E cols e1 :
  pyarrow_importable E = false ->
  primary E = Err e1 -> is_defect e1 = true ->
  read_parquet_safe E cols = (Err e1, [Primary]).
Proof.
  intros Hpa Hp D1. unfold read_parquet_safe.
  now rewrite Hp, (is_defect_oserror_x _ D1), D1, Hpa.
Qed.

Lemma reader_no_pyarrow_reraises_primary_witness :
  read_parquet_safe {| primary := Err (defect_err 1); pyarrow_importable := false;
                       legacy := Ok []; plain_table := Ok [];
                       single_file := Ok []; fastparquet := Ok [] |} None
  = (Err (defect_err 1), [Primary]).
Proof. apply reader_no_pyarrow_reraises_primary; reflexivity. Defined.

Lemma select_present_names cs (fr : frame) :
  (forall c, In c cs -> In c (map fst fr)) ->
  map fst (flat_map (fun c => match find (fun p => String.eqb (fst p) c) fr with
                              | Some p => [p] | None => [] end) cs) = cs.
Proof.
  induction cs as [|c cs IH]; intros H; [reflexivity|].
  cbn [flat_map]. rewrite map_app, IH by (intros; apply H; now right).
  destruct (find (fun p => String.eqb (fst p) c) fr) as [p|] eqn:F.
  - apply find_some in F as [_ E]. apply String.eqb_eq in E. cbn [map app]. now rewrite E.
  - exfalso. destruct (proj1 (in_map_iff _ _ _) (H c (or_introl eq_refl))) as [p [Hp Hin]].
    apply (find_none _ _ F) in Hin. rewrite Hp, String.eqb_refl in Hin. discriminate.
Qed.

(** The three fallback reads that go through the column check. *)
Lemma reader_fallback_selects E cs table e1 :
  pyarrow_importable E = true ->
  primary E = Err e1 -> is_defect e1 = true ->
  legacy E = Ok table
  \/ (exists n, legacy E = Err (TypeError n) /\ plain_table E = Ok table)
  \/ (exists e2, legacy E = Err e2 /\ is_defect e2 = true /\ single_file E = Ok table) ->
  fst (read_parquet_safe E cs) = select_columns cs table.
Proof.
  intros Hpa Hp D1 Hl. unfold read_parquet_safe.
  rewrite Hp, (is_defect_oserror_x _ D1), D1, Hpa. cbn [negb].
  destruct Hl as [Hl|[[n [Hl Hpt]]|[e2 [Hl [D2 Hs]]]]].
  - now rewrite Hl.
  - now rewrite Hl, Hpt.
  - rewrite Hl. assert (is_oserror e2 = true) as O2 by now apply is_defect_oserror_x.
    destruct e2; try discriminate. cbn [negb is_oserror]. rewrite D2. cbn [negb].
    now rewrite Hs.
Qed.

(** After a fallback read succeeds (the legacy-dataset read, the plain
    [read_table] retry after its [TypeError], or the single-file read
    after a second defect), a requested column list is enforced: if every
    requested column is there the frame holds exactly the requested
    columns, in the requested order; otherwise [KeyError] lists the
    missing ones, in the requested order. *)
Lemma reader_fallback_enforces_columns E cs table e1 :
  pyarrow_importable E = true ->
  primary E = Err e1 -> is_defect e1 = true ->
  legacy E = Ok table
  \/ (exists n, legacy E = Err (TypeError n) /\ plain_table E = Ok table)
  \/ (exists e2, legacy E = Err e2 /\ is_defect e2 = true /\ single_file E = Ok table) ->
  cs <> [] ->
  ((forall c, In c cs -> In c (map fst table)) ->
     exists fr, fst (read_parquet_safe E (Some cs)) = Ok fr /\ map fst fr = cs)
  /\ ((exists c, In c cs /\ ~ In c (map fst table)) ->
     fst (read_parquet_safe E (Some cs))
     = Err (KeyError (filter (fun c => negb (mem_str c (map fst table))) cs))).
Proof.
  intros Hpa Hp D1 Hl Hcs. rewrite (reader_fallback_selects E (Some cs) table e1 Hpa Hp D1 Hl).
  destruct cs as [|c0 cs0]; [contradiction|]. unfold select_columns. split.
  - intros Hall.
    replace (filter (fun c => negb (mem_str c (map fst table))) (c0 :: cs0)) with (@nil string).
    + eexists; split; [reflexivity|]. now apply select_present_names.
    + symmetry. apply filter_none_x. apply forallb_forall. intros c Hc.
      rewrite negb_involutive. apply existsb_exists. exists c.
      split; [now apply Hall | apply String.eqb_refl].
  - intros [c [Hc Hn]].
    destruct (filter (fun c => negb (mem_str c (map fst table))) (c0 :: cs0)) eqn:F;
      [|reflexivity].
    exfalso. assert (In c (filter (fun c => negb (mem_str c (map fst table))) (c0 :: cs0))) as Hin.
    { apply filter_In. split; [exact Hc|].
      destruct (mem_str c (map fst table)) eqn:M; [|reflexivity].
      apply existsb_exists in M as [x [Hx Ex]]. apply String.eqb_eq in Ex. subst. contradiction. }
    rewrite F in Hin. destruct Hin.
Qed.

Lemma reader_fallback_enforces_columns_witness :
  fst (read_parquet_safe {| primary := Err (defect_err 1); pyarrow_importable := true;
                            legacy := Err (defect_err 2); plain_table := Ok [];
                            single_file := Ok [("year", 1%nat); ("country", 2%nat)];
                            fastparquet := Ok [] |} (Some ["country"; "gdp"]))
  = Err (KeyError ["gdp"]).
Proof.
  apply (reader_fallback_enforces_columns _ ["country"; "gdp"] [("year", 1%nat); ("country", 2%nat)] (defect_err 1));
    try reflexivity; [| discriminate |].
  - right; right. exists (defect_err 2). now repeat split.
  - exists "gdp". split; [simpl; tauto | simpl; intuition discriminate].
Defined.

(** A frame obtained from fastparquet, the last strategy, is returned as
    that call produced it: [read_parquet_safe]'s own missing-column check
    (and [KeyError]) is not applied to it. *)
Lemma reader_fastparquet_unchecked E cols e1 e2 e3 fr :
  pyarrow_importable E = true ->
  primary E = Err e1 -> is_defect e1 = true ->
  legacy E = Err e2 -> is_defect e2 = true ->
  single_file E = Err e3 -> is_defect e3 = true ->
  fastparquet E = Ok fr ->
  read_parquet_safe E cols = (Ok fr, [Primary; Legacy; SingleFile; FastParquet]).
Proof.
  intros Hpa Hp D1 Hl D2 Hs D3 Hf. unfold read_parquet_safe.
  rewrite Hp, (is_defect_oserror_x _ D1), D1, Hpa, Hl.
  destruct e2; try discriminate D2.
  cbn -[is_defect]; rewrite D2; cbn -[is_defect is_oserror].
  now rewrite Hs, (is_defect_oserror_x _ D3), D3, Hf.
Qed.

Lemma reader_fastparquet_unchecked_witness :
  read_parquet_safe {| primary := Err (defect_err 1); pyarrow_importable := true;
                       legacy := Err (defect_err 2); plain_table := Ok [];
                       single_file := Err (defect_err 3); fastparquet := Ok [("year", 1%nat)] |}
                    (Some ["gdp"])
  = (Ok [("year", 1%nat)], [Primary; Legacy; SingleFile; FastParquet]).
Proof.
  apply (reader_fastparquet_unchecked _ _ (defect_err 1) (defect_err 2) (defect_err 3)); reflexivity.
Defined.

End ReaderExtra.

Module ResolverExtra.
Import Resolver CellFacts.
Local Open Scope list_scope.

Lemma ustr_eqb_eq a b : ustr_eqb a b = true <-> a = b.
Proof.
  revert b; induction a as [|x a IH]; intros [|y b]; simpl; split; try congruence.
  - intros H. apply andb_true_iff in H as [H1 H2]. apply N.eqb_eq in H1.
    apply IH in H2. now subst.
  - intros H. injection H as -> ->. rewrite N.eqb_refl. now apply IH.
Qed.

Lemma ustr_eqb_false a b : ustr_eqb a b = false <-> a <> b.
Proof.
  split; intros H.
  - intros E. apply ustr_eqb_eq in E. congruence.
  - destruct (ustr_eqb a b) eqn:E; [|reflexivity]. now apply ustr_eqb_eq in E.
Qed.

Lemma dict_get_set m k v q :
  dict_get (dict_set m k v) q = if ustr_eqb q k then Some v else dict_get m q.
Proof.
  induction m as [|[k' v'] m IH]; cbn [dict_set dict_get]; [now destruct (ustr_eqb q k)|].
  destruct (ustr_eqb k k') eqn:E1.
  - apply ustr_eqb_eq in E1. subst k'. cbn [dict_get]. now destruct (ustr_eqb q k).
  - cbn [dict_get]. rewrite IH.
    destruct (ustr_eqb q k') eqn:E2; [|reflexivity].
    apply ustr_eqb_eq in E2; subst q.
    destruct (ustr_eqb k' k) eqn:E3; [|reflexivity].
    apply ustr_eqb_eq in E3; subst. now rewrite ustr_eqb_refl_x in E1.
Qed.

Lemma find_app_x {A} (p : A -> bool) l1 l2 :
  find p (l1 ++ l2) = match find p l1 with Some x => Some x | None => find p l2 end.
Proof. induction l1 as [|x l1 IH]; simpl; [reflexivity|]. now destruct (p x). Qed.

Lemma dict_get_fold lower isalnum cased ci raw m q :
  dict_get (fold_left (fun m nc => dict_set m (normalize_key lower isalnum cased ci (fst nc)) (snd nc)) raw m) q
  = match find (fun nc => ustr_eqb q (normalize_key lower isalnum cased ci (fst nc))) (rev raw) with
    | Some nc => Some (snd nc)
    | None => dict_get m q
    end.
Proof.
  revert m; induction raw as [|x raw IH]; intros m; [reflexivity|].
  cbn [fold_left rev]. rewrite IH, find_app_x.
  destruct (find _ (rev raw)); [reflexivity|].
  rewrite dict_get_set. cbn [find]. now destruct (ustr_eqb _ _).
Qed.

Lemma drop_space_app (s b : ustr) :
  drop_space (s ++ b) = match drop_space s with [] => drop_space b | d => (d ++ b)%list end.
Proof.
  induction s as [|c s IH]; [reflexivity|]. cbn [app drop_space].
  now destruct (py_isspace c).
Qed.

Lemma drop_space_spaces (a x : ustr) :
  forallb py_isspace a = true -> drop_space (a ++ x) = drop_space x.
Proof.
  induction a as [|c a IH]; [reflexivity|]. cbn [forallb app drop_space].
  intros H. apply andb_true_iff in H as [-> H]. now apply IH.
Qed.

Lemma forallb_rev_x {A} (f : A -> bool) l : forallb f (rev l) = forallb f l.
Proof.
  destruct (forallb f l) eqn:E.
  - apply forallb_forall. intros x Hx. apply (proj2 (in_rev l x)) in Hx. now apply (proj1 (forallb_forall _ _) E).
  - destruct (forallb f (rev l)) eqn:E'; [|reflexivity].
    rewrite <- E. symmetry. apply forallb_forall. intros x Hx.
    apply (proj1 (forallb_forall _ _) E'). now apply (proj1 (in_rev l x)).
Qed.

(** [str.strip()] ignores any whitespace added around the string. *)
Lemma strip_pad (a s b : ustr) :
  forallb py_isspace a = true -> forallb py_isspace b = true ->
  strip (a ++ s ++ b) = strip s.
Proof.
  intros Ha Hb. unfold strip. rewrite drop_space_spaces by exact Ha.
  rewrite drop_space_app.
  assert (Hb' : drop_space b = []).
  { rewrite <- (app_nil_r b). rewrite drop_space_spaces by exact Hb. reflexivity. }
  destruct (drop_space s) as [|c d] eqn:E; [now rewrite Hb'|].
  rewrite rev_app_distr, drop_space_spaces; [reflexivity|].
  now rewrite forallb_rev_x.
Qed.

(** When country_converter is installed and returns for the stripped
    name a string that is neither blank nor a not-found sentinel, that
    string is the result, whatever the bundled table says. *)
Lemma to_iso3_map_converter_first lower isalnum cased ci convert raw s code :
  strip s <> [] -> convert (strip s) = OStr code ->
  not_found_sentinel lower cased ci code = false -> strip code <> [] ->
  to_iso3_map lower isalnum cased ci (Some convert) raw (VStr s) = Some code.
Proof.
  intros Hs Hc Hn Hcode. unfold to_iso3_map. remember (strip s) as n.
  destruct n as [|h t]; [contradiction|]. rewrite Hc. cbn iota beta zeta.
  rewrite Hn. destruct (strip code) as [|h' t']; [contradiction|].
  destruct code; [now destruct Hcode | reflexivity].
Qed.

Lemma to_iso3_map_converter_first_witness :
  to_iso3_map latin1_lower latin1_isalnum latin1_cased latin1_case_ignorable (Some coco_numeric) bundle_civ (VStr (u " 4 ")) = Some (u "AFG").
Proof.
  apply to_iso3_map_converter_first; vm_compute; first [reflexivity | discriminate].
Defined.

(** The bundled table decides whenever the converter gives nothing: it
    is not installed, raises, returns [None] or an empty list, or returns
    a blank or not-found string. The result is then the bundled code of
    the stripped name ([np.nan] when that code is empty). *)
Lemma to_iso3_map_falls_back lower isalnum cased ci cc raw s :
  strip s <> [] ->
  match cc with
  | None => True
  | Some convert =>
      convert (strip s) = ORaise \/ convert (strip s) = ONone \/ convert (strip s) = OSeq None
      \/ exists c, convert (strip s) = OStr c /\ (not_found_sentinel lower cased ci c = true \/ strip c = [])
  end ->
  to_iso3_map lower isalnum cased ci cc raw (VStr s)
  = match fallback_lookup lower isalnum cased ci raw (VStr (strip s)) with
    | Some ((_ :: _) as r) => Some r
    | _ => None
    end.
Proof.
  intros Hs Hcc. unfold to_iso3_map. remember (strip s) as n.
  destruct n as [|h t]; [contradiction|]. clear Hs Heqn.
  destruct cc as [convert|].
  - destruct Hcc as [E|[E|[E|[c [E [E'|E']]]]]]; rewrite E; cbn iota beta zeta.
    + destruct (fallback_lookup _ _ _ _) as [[|]|]; reflexivity.
    + destruct (fallback_lookup _ _ _ _) as [[|]|]; reflexivity.
    + destruct (fallback_lookup _ _ _ _) as [[|]|]; reflexivity.
    + rewrite E'. destruct (fallback_lookup _ _ _ _) as [[|]|]; reflexivity.
    + destruct (not_found_sentinel lower cased ci c).
      * destruct (fallback_lookup _ _ _ _) as [[|]|]; reflexivity.
      * rewrite E'. destruct (fallback_lookup _ _ _ _) as [[|]|]; reflexivity.
  - cbn iota beta zeta. destruct (fallback_lookup _ _ _ _) as [[|]|]; reflexivity.
Qed.

Lemma to_iso3_map_falls_back_witness :
  to_iso3_map latin1_lower latin1_isalnum latin1_cased latin1_case_ignorable (Some coco_numeric) bundle_civ
    (VStr (u "Cote d'Ivoire")) = Some (u "CIV").
Proof.
  rewrite (to_iso3_map_falls_back latin1_lower latin1_isalnum latin1_cased latin1_case_ignorable (Some coco_numeric) bundle_civ (u "Cote d'Ivoire")).
  - reflexivity.
  - vm_compute; discriminate.
  - right; right; right. exists (u "not found"). split; [reflexivity | left; reflexivity].
Defined.

(** Whitespace around a name never changes its resolution: both the
    converter and the bundled table only see the stripped name. *)
Lemma to_iso3_map_surrounding_space lower isalnum cased ci cc raw (a s b : ustr) :
  forallb py_isspace a = true -> forallb py_isspace b = true ->
  to_iso3_map lower isalnum cased ci cc raw (VStr (a ++ s ++ b))
  = to_iso3_map lower isalnum cased ci cc raw (VStr s).
Proof. intros Ha Hb. unfold to_iso3_map. cbv beta iota zeta. now rewrite strip_pad. Qed.

Lemma to_iso3_map_surrounding_space_witness :
  to_iso3_map latin1_lower latin1_isalnum latin1_cased latin1_case_ignorable (Some coco_numeric) bundle_civ (VStr (u " " ++ u "4" ++ [10%N; 160%N]))
  = to_iso3_map latin1_lower latin1_isalnum latin1_cased latin1_case_ignorable (Some coco_numeric) bundle_civ (VStr (u "4")).
Proof. apply to_iso3_map_surrounding_space; reflexivity. Defined.

(** The bundled table is read into a dict keyed by normalized name, so
    when several bundled names share a normalized key the last one's code
    is the one a lookup returns. *)
Lemma fallback_lookup_last_entry_wins lower isalnum cased ci raw name :
  normalize_key lower isalnum cased ci name <> [] ->
  fallback_lookup lower isalnum cased ci raw (VStr name)
  = option_map snd (find (fun nc => ustr_eqb (normalize_key lower isalnum cased ci name)
                                             (normalize_key lower isalnum cased ci (fst nc))) (rev raw)).
Proof.
  intros H. unfold fallback_lookup, fallback_iso_map.
  destruct (normalize_key lower isalnum cased ci name) as [|h t] eqn:E; [contradiction|].
  rewrite dict_get_fold. now destruct (find _ (rev raw)).
Qed.

Lemma fallback_lookup_last_entry_wins_witness :
  fallback_lookup latin1_lower latin1_isalnum latin1_cased latin1_case_ignorable [(u "Congo", u "COG"); (u "CONGO", u "COD")] (VStr (u "congo"))
  = Some (u "COD").
Proof.
  rewrite fallback_lookup_last_entry_wins; [reflexivity | vm_compute; discriminate].
Defined.

End ResolverExtra.

Module CleanExtra.
Import Frame.

Lemma dedup_aux_distinct_id subset seen rows :
  ForallOrdPairs (fun r1 r2 => cells_eqb (proj subset r2) (proj subset r1) = false) rows ->
  (forall r p, In r rows -> In p seen -> cells_eqb (proj subset r) p = false) ->
  dedup_aux subset seen rows = rows.
Proof.
  revert seen; induction rows as [|r rs IH]; intros seen Hp Hs; [reflexivity|].
  inversion Hp as [|r0 rs0 Hr Hrs]; subst. cbn [dedup_aux].
  destruct (existsb (cells_eqb (proj subset r)) seen) eqn:E.
  - apply existsb_exists in E as [p [Hin Hp']].
    rewrite (Hs r p (or_introl eq_refl) Hin) in Hp'. discriminate.
  - f_equal. apply IH; [exact Hrs|].
    intros r' p Hr' [<-|Hin].
    + exact (proj1 (Forall_forall _ _) Hr r' Hr').
    + apply Hs; [now right | exact Hin].
Qed.

Lemma filter_all_true {A} (f : A -> bool) l : (forall x, In x l -> f x = true) -> filter f l = l.
Proof.
  induction l as [|x l IH]; intros H; [reflexivity|]. cbn [filter].
  rewrite (H x (or_introl eq_refl)). f_equal. apply IH. intros; apply H; now right.
Qed.

(** [clean] is idempotent: cleaning its own output returns that output
    unchanged (no row loses a key, no two kept rows agree off [sex]). *)
Lemma clean_idempotent t t' : clean t = inr t' -> clean t' = inr t'.
Proof.
  unfold clean. intros H.
  destruct (negb (mem_str "country_iso3" (tcols t))) eqn:E1; [discriminate|].
  destruct (negb (mem_str "year" (tcols t))) eqn:E2; [discriminate|].
  injection H as <-. cbn [tcols trows]. rewrite E1, E2.
  set (dd := drop_duplicates (dedup_subset t) (filter clean_valid (trows t))).
  assert (Hd : drop_duplicates (dedup_subset {| tcols := tcols t; trows := dd |}) (filter clean_valid dd) = dd).
  { rewrite (filter_all_true clean_valid).
    - apply dedup_aux_distinct_id; [apply IngestCleanProps.dedup_aux_pairwise | intros _ _ _ []].
    - intros r Hr. apply IngestCleanProps.dedup_aux_incl in Hr. now apply filter_In in Hr. }
  now rewrite Hd.
Qed.

Lemma clean_idempotent_witness :
  let t := {| tcols := ["country_iso3"; "year"; "sex"];
              trows := [mkrow [("country_iso3", CStr "FRA"); ("year", CNum 2020); ("sex", CStr "male")];
                        mkrow [("country_iso3", CStr "FRA"); ("year", CNum 2020); ("sex", CStr "female")];
                        mkrow [("country_iso3", CStr "FRA"); ("year", CNull)]] |} in
  exists t', clean t = inr t' /\ clean t' = inr t' /\ length (trows t') = 1%nat.
Proof.
  intros t. eexists. split; [reflexivity|]. split; [|reflexivity].
  apply (clean_idempotent t). reflexivity.
Defined.

End CleanExtra.

Module GapExtra.
Import Frame Gap GapProps.







Lemma wide_loop_no_pairs t ms produced out :
  (forall mc, In mc ms -> mem_str (drop_last5 mc ++ "_female") (tcols t) = false) ->
  wide_loop t ms produced out = inr out.
Proof.
  revert produced out.
  induction ms as [|m ms IH]; intros produced out H; cbn [wide_loop]; [reflexivity|].
  rewrite (H m (or_introl eq_refl)). apply IH. intros; apply H; now right.
Qed.

(** With no long-shape signal (no [sex] column, or none of the three
    indicators) and no [*_male] column with a [*_female] sibling,
    [gender_gap] raises its [ValueError], whatever else the table holds
    (even missing key columns). *)
Lemma gender_gap_no_signal t :
  (mem_str "sex" (tcols t) = false \/ forall n, In n indicators -> mem_str n (tcols t) = false) ->
  (forall mc, In mc (tcols t) -> ends_with "_male" mc = true ->
     mem_str (drop_last5 mc ++ "_female") (tcols t) = false) ->
  gender_gap t = inl (ValueError "Sex-stratified columns not found. Provide 'sex' column or *_male/*_female pairs.").
Proof.
  intros Hs Hw. unfold gender_gap, gender_gap_parts.
  assert (Hl : (if mem_str "sex" (tcols t) then long_loop t indicators [] [] else inr ([], []))
               = inr ([], [])).
  { destruct Hs as [-> | Hn]; [reflexivity|].
    destruct (mem_str "sex" (tcols t)); [now apply long_loop_none_present | reflexivity]. }
  rewrite Hl, wide_loop_no_pairs; [reflexivity|].
  intros mc Hmc. apply filter_In in Hmc as [H1 H2]. now apply Hw.
Qed.

Lemma gender_gap_no_signal_witness :
  gender_gap {| tcols := ["country_iso3"; "year"; "sex"; "gdp_male"]; trows := [] |}
  = inl (ValueError "Sex-stratified columns not found. Provide 'sex' column or *_male/*_female pairs.").
Proof.
  apply gender_gap_no_signal.
  - right. intros n Hn. simpl in Hn. intuition (subst; reflexivity).
  - intros mc Hmc _. simpl in Hmc. intuition (subst; reflexivity).
Defined.

Lemma uniq_keys_incl seen ks : incl (uniq_keys seen ks) ks.
Proof.
  revert seen; induction ks as [|k ks IH]; intros seen; simpl; [apply incl_refl|].
  destruct (existsb _ seen).
  - apply incl_tl, IH.
  - apply incl_cons; [now left | apply incl_tl, IH].
Qed.

Lemma pivot_gap_keys_present t name rows :
  pivot_gap t name = inr (Some rows) -> forall k c, In (k, c) rows -> forallb notnull k = true.
Proof.
  unfold pivot_gap. destruct (first_missing (tcols t) keys); [discriminate|].
  destruct (existsb _ (trows t)); [discriminate|].
  destruct (_ && _); [|discriminate]. intros H; injection H as <-.
  intros k c Hin. apply in_map_iff in Hin as [k' [E Hk']]. injection E as -> _.
  apply uniq_keys_incl in Hk'. apply in_map_iff in Hk' as [r [<- Hr]].
  apply filter_In in Hr as [_ Hr]. apply andb_true_iff in Hr as [Hr _].
  unfold long_valid in Hr. now apply andb_true_iff in Hr as [Hr _].
Qed.

Lemma long_loop_parts_from_pivot t names produced out out' produced' :
  long_loop t names produced out = inr (out', produced') ->
  forall q, In q out' -> In q out \/ exists name, pivot_gap t name = inr (Some (prows q)).
Proof.
  revert produced out.
  induction names as [|n ns IH]; intros produced out H q Hq; cbn [long_loop] in H.
  - injection H as <- _. now left.
  - destruct (mem_str n (tcols t)); [|exact (IH _ _ H q Hq)].
    destruct (pivot_gap t n) as [e|[rows|]] eqn:P; [discriminate| |exact (IH _ _ H q Hq)].
    destruct (mem_str _ produced); [exact (IH _ _ H q Hq)|].
    destruct (IH _ _ H q Hq) as [Hin|Hex]; [|now right].
    apply in_app_iff in Hin as [Hin|[<-|[]]]; [now left|]. right. now exists n.
Qed.

(** When the report comes from the long-shape pass alone (no [*_male]
    column has a [*_female] sibling), none of its rows has a missing
    country, ISO3 code or year: [pivot_table] drops those rows, whereas the
    wide-shape pass keeps them. *)
Lemma gender_gap_long_keys_present t g :
  (forall mc, In mc (tcols t) -> ends_with "_male" mc = true ->
     mem_str (drop_last5 mc ++ "_female") (tcols t) = false) ->
  gender_gap t = inr g ->
  forall k vs, In (k, vs) (grows g) -> forallb notnull k = true.
Proof.
  intros Hw. unfold gender_gap, gender_gap_parts.
  destruct (mem_str "sex" (tcols t));
    [|rewrite wide_loop_no_pairs
        by (intros mc Hmc; apply filter_In in Hmc as [H1 H2]; now apply Hw); discriminate].
  destruct (long_loop t indicators [] []) as [e|[out produced]] eqn:L; [discriminate|].
  rewrite wide_loop_no_pairs
    by (intros mc Hmc; apply filter_In in Hmc as [H1 H2]; now apply Hw).
  destruct out as [|p ps]; [discriminate|]. intros H; injection H as <-.
  intros k vs Hin.
  destruct (merge_parts_inv p ps) as [_ [_ [Hk _]]].
  destruct (Hk k vs Hin) as [q [c [Hq Hkc]]].
  destruct (long_loop_parts_from_pivot _ _ _ _ _ _ L q Hq) as [[]|[name P]].
  exact (pivot_gap_keys_present _ _ _ P k c Hkc).
Qed.

Lemma gender_gap_long_keys_present_witness :
  let t := {| tcols := ["country"; "country_iso3"; "year"; "sex"; "prevalence_total"];
              trows := [mkrow [("country", CStr "X"); ("country_iso3", CStr "XXX"); ("year", CNum 2020);
                               ("sex", CStr "Female"); ("prevalence_total", CNum 3)];
                        mkrow [("country", CStr "X"); ("country_iso3", CStr "XXX"); ("year", CNum 2020);
                               ("sex", CStr "Male"); ("prevalence_total", CNum 1)];
                        mkrow [("country", CStr "X"); ("country_iso3", CNull); ("year", CNum 2021);
                               ("sex", CStr "Female"); ("prevalence_total", CNum 5)];
                        mkrow [("country", CStr "X"); ("country_iso3", CNull); ("year", CNum 2021);
                               ("sex", CStr "Male"); ("prevalence_total", CNum 2)]] |} in
  exists g, gender_gap t = inr g /\ length (grows g) = 1%nat
    /\ forall k vs, In (k, vs) (grows g) -> forallb notnull k = true.
Proof.
  intros t. eexists. split; [reflexivity|]. split; [reflexivity|].
  apply (gender_gap_long_keys_present t).
  - intros mc Hmc. simpl in Hmc. intuition (subst; discriminate).
  - reflexivity.
Defined.

End GapExtra.

Module UtilsExtra.
Import Frame Utils.
Local Open Scope list_scope.

Lemma Forall2_map_r_x {A B} (P : A -> B -> Prop) (Q : A -> B -> Prop) (F : B -> B) l1 l2 :
  (forall a b, Q a b -> P a (F b)) -> Forall2 Q l1 l2 -> Forall2 P l1 (map F l2).
Proof. intros H HQ. induction HQ; constructor; auto. Qed.

Lemma Forall2_diag_x {A} (P : A -> A -> Prop) l : (forall a, P a a) -> Forall2 P l l.
Proof. intros H. induction l; constructor; auto. Qed.

Lemma fillna_assoc a b c : fillna (fillna a b) c = fillna a (fillna b c).
Proof. now destruct a. Qed.

Lemma fillna_self a : fillna a a = a.
Proof. now destruct a. Qed.

Lemma mem_str_app_single x l y :
  mem_str x (l ++ [y]) = mem_str x l || String.eqb x y.
Proof. unfold mem_str. rewrite existsb_app. cbn. now rewrite orb_false_r. Qed.

Lemma coalesce_fold cols out C rows tacc (G : row -> cell) :
  tcols tacc = C -> mem_str out C = true ->
  Forall2 (fun r r' => r' out = G r /\ forall x, x <> out -> r' x = r x) rows (trows tacc) ->
  let res := fold_left (fun t c => if mem_str c (tcols t)
                                   then set_col t out (fun r => fillna (r out) (r c))
                                   else t) cols tacc in
  tcols res = C
  /\ Forall2 (fun r r' => r' out = fillna (G r) (first_notnull (map r
                (filter (fun c => mem_str c C && negb (String.eqb c out)) cols)))
                /\ forall x, x <> out -> r' x = r x) rows (trows res).
Proof.
  revert tacc G. induction cols as [|c cs IH]; intros tacc G HC Hout HF; cbn [fold_left].
  - split; [exact HC|]. eapply Forall2_impl; [|exact HF].
    intros r r' [H1 H2]. split; [|exact H2]. rewrite H1. now destruct (G r).
  - rewrite HC. destruct (mem_str c C) eqn:Mc.
    + assert (HF' : Forall2 (fun r r' => r' out = fillna (G r) (if String.eqb c out then G r else r c)
                                          /\ forall x, x <> out -> r' x = r x)
                      rows (trows (set_col tacc out (fun r => fillna (r out) (r c))))).
      { cbn [trows set_col]. eapply Forall2_map_r_x; [|exact HF].
        intros r r' [H1 H2]. cbn beta. rewrite String.eqb_refl. split.
        - rewrite H1. destruct (String.eqb c out) eqn:E.
          + apply String.eqb_eq in E. subst c. now rewrite H1.
          + apply String.eqb_neq in E. now rewrite H2.
        - intros x Hx. rewrite (proj2 (String.eqb_neq x out) Hx). now apply H2. }
      assert (HC' : tcols (set_col tacc out (fun r => fillna (r out) (r c))) = C)
        by (cbn [tcols set_col]; now rewrite HC, Hout).
      destruct (IH _ _ HC' Hout HF') as [R1 R2]. split; [exact R1|].
      eapply Forall2_impl; [|exact R2]. intros r r' [H1 H2]. split; [|exact H2].
      rewrite H1. cbn [filter]. rewrite Mc. destruct (String.eqb c out); cbn.
      * now rewrite fillna_self.
      * now rewrite fillna_assoc.
    + destruct (IH _ _ HC Hout HF) as [R1 R2]. split; [exact R1|].
      eapply Forall2_impl; [|exact R2]. intros r r' [H1 H2]. split; [|exact H2].
      rewrite H1. cbn [filter]. now rewrite Mc.
Qed.

(** [coalesce_first(df, cols, out)] sets column [out] of each row to the
    first non-missing value among the listed columns that exist, in the
    order listed, and leaves every other cell alone; [out] is appended when
    new. The original values of [out] never count, even when [out] is
    itself listed, since the column is first reset to [None]. *)
Lemma coalesce_first_spec t cols out :
  tcols (coalesce_first t cols out)
  = (if mem_str out (tcols t) then tcols t else tcols t ++ [out])
  /\ Forall2 (fun r r' =>
        r' out = first_notnull (map r (filter (fun c => mem_str c (tcols t) && negb (String.eqb c out)) cols))
        /\ forall x, x <> out -> r' x = r x)
       (trows t) (trows (coalesce_first t cols out)).
Proof.
  set (C := if mem_str out (tcols t) then tcols t else tcols t ++ [out]).
  assert (Hout : mem_str out C = true).
  { unfold C. destruct (mem_str out (tcols t)) eqn:E; [exact E|].
    rewrite mem_str_app_single, String.eqb_refl. apply orb_true_r. }
  assert (Hf : forall c, mem_str c C && negb (String.eqb c out)
                         = mem_str c (tcols t) && negb (String.eqb c out)).
  { intros c. unfold C. destruct (mem_str out (tcols t)); [reflexivity|].
    rewrite mem_str_app_single. destruct (String.eqb c out); cbn; [now rewrite !andb_false_r|].
    now rewrite orb_false_r. }
  assert (H0 : Forall2 (fun r r' => r' out = (fun _ => CNull) r /\ forall x, x <> out -> r' x = r x)
                 (trows t) (trows (set_col t out (fun _ => CNull)))).
  { cbn [trows set_col]. eapply Forall2_map_r_x; [|apply (Forall2_diag_x eq); reflexivity].
    intros r r' <-. cbn beta. rewrite String.eqb_refl. split; [reflexivity|].
    intros x Hx. now rewrite (proj2 (String.eqb_neq x out) Hx). }
  destruct (coalesce_fold cols out C (trows t) (set_col t out (fun _ => CNull)) (fun _ => CNull) eq_refl Hout H0) as [R1 R2].
  unfold coalesce_first. split; [exact R1|].
  eapply Forall2_impl; [|exact R2]. intros r r' [H1 H2]. split; [|exact H2].
  rewrite H1. cbn [fillna]. f_equal. f_equal. apply filter_ext. exact Hf.
Qed.

Lemma to_numeric_cell_idem parse c :
  to_numeric_cell parse (to_numeric_cell parse c) = to_numeric_cell parse c.
Proof. destruct c as [|q|s]; [reflexivity|reflexivity|]. cbn. now destruct (parse s). Qed.

Lemma ensure_numeric_fold parse cols C rows tacc (P : string -> bool) :
  tcols tacc = C ->
  Forall2 (fun r r' => forall x, r' x = if P x then to_numeric_cell parse (r x) else r x)
    rows (trows tacc) ->
  let res := fold_left (fun t c => if mem_str c (tcols t)
                                   then set_col t c (fun r => to_numeric_cell parse (r c))
                                   else t) cols tacc in
  tcols res = C
  /\ Forall2 (fun r r' => forall x, r' x = if P x || (mem_str x cols && mem_str x C)
                                           then to_numeric_cell parse (r x) else r x)
       rows (trows res).
Proof.
  revert tacc P. induction cols as [|c cs IH]; intros tacc P HC HF; cbn [fold_left].
  - split; [exact HC|]. eapply Forall2_impl; [|exact HF].
    intros r r' H x. rewrite H. cbn. now rewrite orb_false_r.
  - rewrite HC. destruct (mem_str c C) eqn:Mc.
    + assert (HF' : Forall2 (fun r r' => forall x, r' x = if P x || String.eqb x c
                                                     then to_numeric_cell parse (r x) else r x)
                      rows (trows (set_col tacc c (fun r => to_numeric_cell parse (r c))))).
      { cbn [trows set_col]. eapply Forall2_map_r_x; [|exact HF].
        intros r r' H x. cbn beta. rewrite !H.
        destruct (String.eqb x c) eqn:E.
        - apply String.eqb_eq in E. subst x. rewrite orb_true_r.
          destruct (P c); [apply to_numeric_cell_idem | reflexivity].
        - now rewrite orb_false_r. }
      assert (HC' : tcols (set_col tacc c (fun r => to_numeric_cell parse (r c))) = C)
        by (cbn [tcols set_col]; now rewrite HC, Mc).
      destruct (IH _ _ HC' HF') as [R1 R2]. split; [exact R1|].
      eapply Forall2_impl; [|exact R2]. intros r r' H x. rewrite H.
      assert (B : mem_str x (c :: cs) = String.eqb x c || mem_str x cs) by reflexivity.
      rewrite B. destruct (String.eqb x c) eqn:E.
      * apply String.eqb_eq in E. subst x. rewrite Mc. now destruct (P c).
      * now destruct (P x).
    + destruct (IH _ _ HC HF) as [R1 R2]. split; [exact R1|].
      eapply Forall2_impl; [|exact R2]. intros r r' H x. rewrite H.
      assert (B : mem_str x (c :: cs) = String.eqb x c || mem_str x cs) by reflexivity.
      rewrite B. destruct (String.eqb x c) eqn:E.
      * apply String.eqb_eq in E. subst x. rewrite Mc. now destruct (P c), (mem_str c cs).
      * now destruct (P x).
Qed.

Lemma ensure_numeric_shape parse t cols :
  tcols (ensure_numeric parse t cols) = tcols t
  /\ Forall2 (fun r r' => forall x,
        r' x = if mem_str x cols && mem_str x (tcols t) then to_numeric_cell parse (r x) else r x)
       (trows t) (trows (ensure_numeric parse t cols)).
Proof.
  destruct (ensure_numeric_fold parse cols (tcols t) (trows t) t (fun _ => false) eq_refl)
    as [R1 R2].
  - apply Forall2_diag_x. reflexivity.
  - split; [exact R1|]. exact R2.
Qed.

(** [ensure_numeric(df, cols)] keeps the column list, converts with
    [pd.to_numeric(errors="coerce")] exactly the listed columns that exist
    (a string that is not a number becomes missing), leaves every other
    column alone, and silently skips listed columns that do not exist. *)
Lemma ensure_numeric_spec parse t cols :
  tcols (ensure_numeric parse t cols) = tcols t
  /\ Forall2 (fun r r' => forall x,
        r' x = if mem_str x cols && mem_str x (tcols t) then to_numeric_cell parse (r x) else r x)
       (trows t) (trows (ensure_numeric parse t cols)).
Proof. exact (ensure_numeric_shape parse t cols). Qed.

(** Running [ensure_numeric] a second time with the same columns changes
    nothing. *)
Lemma ensure_numeric_idempotent parse t cols :
  let t1 := ensure_numeric parse t cols in
  tcols (ensure_numeric parse t1 cols) = tcols t1
  /\ Forall2 (fun r r' => forall x, r' x = r x) (trows t1) (trows (ensure_numeric parse t1 cols)).
Proof.
  intros t1.
  destruct (ensure_numeric_shape parse t cols) as [A1 A2].
  destruct (ensure_numeric_shape parse t1 cols) as [B1 B2].
  split; [exact B1|].
  assert (HF := B2). clear B2. fold t1 in A1, A2.
  revert A2 HF. generalize (trows t) (trows t1) (trows (ensure_numeric parse t1 cols)).
  intros l0 l1 l2 A2. revert l2. induction A2 as [|r0 r1 l0 l1 H0 HA IH]; intros l2 HF;
    inversion HF as [|a b c d H1 HB]; subst; constructor.
  - intros x. rewrite H1, A1, (H0 x).
    destruct (mem_str x cols && mem_str x (tcols t)); [apply to_numeric_cell_idem | reflexivity].
  - now apply IH.
Qed.

End UtilsExtra.

Module CliExtra.
Import Frame Resolver Cli ResolverExtra CellFacts.

Lemma count_str_app x l1 l2 : count_str x (l1 ++ l2) = (count_str x l1 + count_str x l2)%nat.
Proof. induction l1 as [|y l1 IH]; cbn; [reflexivity|]. rewrite IH. lia. Qed.

Lemma count_rename_other x a b l :
  x <> a -> x <> b -> count_str x (rename_col a b l) = count_str x l.
Proof.
  intros Ha Hb. unfold rename_col. induction l as [|y l IH]; [reflexivity|].
  cbn [map count_str]. rewrite IH.
  destruct (String.eqb y a) eqn:E.
  - apply String.eqb_eq in E. subst y. apply String.eqb_neq in Ha, Hb. now rewrite Ha, Hb.
  - reflexivity.
Qed.

Lemma count_rename_into x a l :
  x <> a -> count_str x (rename_col a x l) = (count_str x l + count_str a l)%nat.
Proof.
  intros Hxa. unfold rename_col. induction l as [|y l IH]; [reflexivity|].
  cbn [map count_str]. rewrite IH.
  destruct (String.eqb y a) eqn:E.
  - apply String.eqb_eq in E. subst y. rewrite String.eqb_refl, String.eqb_refl.
    rewrite (proj2 (String.eqb_neq x a) Hxa). lia.
  - destruct (String.eqb a y) eqn:E'; [apply String.eqb_eq in E'; subst; now rewrite String.eqb_refl in E|].
    destruct (String.eqb x y); lia.
Qed.

Lemma count_str_pos x l : mem_str x l = true -> (1 <= count_str x l)%nat.
Proof.
  induction l as [|y l IH]; [discriminate|]. unfold mem_str; cbn [existsb].
  intros H. cbn. destruct (String.eqb x y); [lia|]. specialize (IH H). lia.
Qed.

Lemma external_key_columns_year_count cols :
  mem_str "Year" cols = true -> mem_str "year" cols = false ->
  (2 <= count_str "year" (external_key_columns cols))%nat.
Proof.
  intros HY Hy. unfold external_key_columns. cbn [find year_aliases].
  rewrite Hy, HY. cbn [String.eqb Ascii.eqb Bool.eqb andb].
  unfold assign_col. rewrite Hy.
  assert (Hc : (2 <= count_str "year" (rename_col "Year" "year" (cols ++ ["year"])))%nat).
  { rewrite count_rename_into by discriminate. rewrite !count_str_app. cbn.
    pose proof (count_str_pos _ _ HY). lia. }
  destruct (negb (mem_str "country_iso3" _)); [|exact Hc].
  destruct (find _ iso_aliases) as [c|] eqn:F; [|exact Hc].
  apply find_some in F as [Hc' _]. cbn in Hc'.
  rewrite count_rename_other; [exact Hc| |discriminate].
  intros <-. intuition discriminate.
Qed.

(** An external table whose year column is spelled [Year] (with no
    [year] column) ends up with two columns labelled [year]: the numeric
    copy is assigned to a new [year] column and [Year] is then renamed to
    [year] as well. *)
Lemma external_key_columns_duplicates_year cols :
  mem_str "Year" cols = true -> mem_str "year" cols = false ->
  (2 <= count_str "year" (external_key_columns cols))%nat.
Proof. apply external_key_columns_year_count. Qed.

Lemma count_str_filter x l : count_str x l = length (filter (String.eqb x) l).
Proof. induction l as [|y l IH]; [reflexivity|]. cbn. rewrite IH. now destruct (String.eqb x y). Qed.

Lemma external_key_columns_duplicates_year_witness :
  external_key_columns ["Code"; "Year"; "gdp"] = ["country_iso3"; "year"; "gdp"; "year"]
  /\ (2 <= count_str "year" (external_key_columns ["Code"; "Year"; "gdp"]))%nat.
Proof.
  split; [reflexivity|]. apply external_key_columns_duplicates_year; reflexivity.
Defined.

(** In [forecast], when the table has a [country_iso3] column but no
    [country] column and no ISO3 cell matches the argument, the name lookup
    [df["country"]] raises [KeyError] before the resolver is tried. *)
Lemma forecast_missing_country_column lower isalnum cased ci float_str nn cc raw t country :
  mem_str "country_iso3" (tcols t) = true -> mem_str "country" (tcols t) = false ->
  (forall r, In r (trows t) ->
     ustr_eqb (lowered lower cased ci (cell_ustr float_str nn (r "country_iso3"))) (lowered lower cased ci (strip (u country))) = false) ->
  forecast_country_iso3 lower isalnum cased ci float_str nn cc raw t country = inl (CliKeyError "country").
Proof.
  intros Hi Hc Hn. unfold forecast_country_iso3. rewrite Hi, Hc.
  rewrite filter_none_x; [reflexivity|].
  apply forallb_forall. intros r Hr. now rewrite Hn.
Qed.

Lemma forecast_missing_country_column_witness :
  forecast_country_iso3 latin1_lower latin1_isalnum latin1_cased latin1_case_ignorable (fun _ => "0.0") false None bundle_civ
    {| tcols := ["country_iso3"; "year"];
       trows := [mkrow [("country_iso3", CStr "FRA"); ("year", CNum 2020)]] |} "Cote d'Ivoire"
  = inl (CliKeyError "country").
Proof.
  apply forecast_missing_country_column; try reflexivity.
  intros r [<-|[]]. vm_compute. reflexivity.
Defined.




End CliExtra.

Module JoinExtra.
Import Frame Cli JoinProps CliExtra.

(** [join_external] fails whenever a key labels no column, or several
    columns, of either table: pandas looks every key up before merging. *)
Lemma join_external_key_label_raises kde base ext on c :
  In c on ->
  length (filter (String.eqb c) (tcols ext)) <> 1%nat
  \/ length (filter (String.eqb c) (tcols base)) <> 1%nat ->
  exists e, join_external kde base ext on = inl e.
Proof.
  intros Hin Hbad. destruct (key_error_some base ext on c Hin Hbad) as [e He].
  exists e. unfold join_external. now rewrite He.
Qed.

Lemma join_external_key_label_raises_witness :
  join_external (fun _ _ _ => None)
    {| tcols := ["country_iso3"; "year"]; trows := [] |}
    {| tcols := ["country_iso3"; "year"; "gdp"; "year"]; trows := [] |}
    ["country_iso3"; "year"]
  = inl (ValueError "The column label 'year' is not unique.").
Proof.
  destruct (join_external_key_label_raises (fun _ _ _ => None)
    {| tcols := ["country_iso3"; "year"]; trows := [] |}
    {| tcols := ["country_iso3"; "year"; "gdp"; "year"]; trows := [] |}
    ["country_iso3"; "year"] "year") as [e He].
  - right; left; reflexivity.
  - left; simpl; discriminate.
  - rewrite He. simpl in He. injection He as <-. reflexivity.
Defined.

(** [join-external] with the default key "country_iso3 year" always fails
    on an external CSV whose year column is spelled [Year] and that has no
    [year] column: the normalised external table has two [year] columns,
    and [pd.merge] refuses a key label that is not unique (or an earlier
    key lookup fails first). *)
Lemma join_external_cmd_year_alias_raises kde base cols rows :
  mem_str "Year" cols = true -> mem_str "year" cols = false ->
  exists e, join_external kde base {| tcols := external_key_columns cols; trows := rows |}
                          ["country_iso3"; "year"] = inl e.
Proof.
  intros HY Hy.
  pose proof (external_key_columns_year_count cols HY Hy) as H2.
  rewrite count_str_filter in H2.
  destruct (key_error_some base {| tcols := external_key_columns cols; trows := rows |}
              ["country_iso3"; "year"] "year") as [e He].
  - right; left; reflexivity.
  - left. cbn [tcols]. lia.
  - exists e. unfold join_external. now rewrite He.
Qed.

Lemma join_external_cmd_year_alias_raises_witness :
  exists e, join_external (fun _ _ _ => None)
              {| tcols := ["country_iso3"; "year"; "prevalence_total"]; trows := [] |}
              {| tcols := external_key_columns ["Code"; "Year"; "gdp"]; trows := [] |}
              ["country_iso3"; "year"] = inl e.
Proof. apply join_external_cmd_year_alias_raises; reflexivity. Defined.

End JoinExtra.

Module IngestExtra.
Import Frame Resolver Utils Cli Ingest UtilsExtra.


Lemma Forall2_in_r_x {A B} (R : A -> B -> Prop) l1 l2 b :
  Forall2 R l1 l2 -> In b l2 -> exists a, In a l1 /\ R a b.
Proof.
  intros H; induction H as [|a0 b0 l1 l2 Hab H IH]; intros Hin; [destruct Hin|].
  destruct Hin as [E|Hb].
  - subst b. exists a0. split; [now left | exact Hab].
  - destruct (IH Hb) as [a [Ha Hr]]. exists a. split; [now right | exact Hr].
Qed.

Lemma Forall2_in_l_x {A B} (R : A -> B -> Prop) l1 l2 a :
  Forall2 R l1 l2 -> In a l1 -> exists b, In b l2 /\ R a b.
Proof.
  intros H; induction H as [|a0 b0 l1 l2 Hab H IH]; intros Hin; [destruct Hin|].
  destruct Hin as [E|Ha].
  - subst a. exists b0. split; [now left | exact Hab].
  - destruct (IH Ha) as [b [Hb Hr]]. exists b. split; [now right | exact Hr].
Qed.

Lemma Forall2_diag_in_x {A} (P : A -> A -> Prop) l :
  (forall a, In a l -> P a a) -> Forall2 P l l.
Proof.
  induction l as [|a l IH]; intros H; constructor; [apply H; now left|].
  apply IH. intros; apply H; now right.
Qed.

Lemma existsb_false_x {A} (f : A -> bool) l :
  existsb f l = false -> forall x, In x l -> f x = false.
Proof.
  intros H x Hx. destruct (f x) eqn:E; [|reflexivity].
  assert (existsb f l = true) by (apply existsb_exists; eauto). congruence.
Qed.

Lemma mem_set_col c t x f :
  mem_str c (tcols (set_col t x f)) = mem_str c (tcols t) || String.eqb c x.
Proof.
  cbn [set_col tcols]. destruct (mem_str x (tcols t)) eqn:M.
  - destruct (String.eqb c x) eqn:E; [|now rewrite orb_false_r].
    apply String.eqb_eq in E; subst. now rewrite M.
  - apply mem_str_app_single.
Qed.

Lemma derive_total_err t e : derive_total t = inl e -> e = TypeError.
Proof.
  unfold derive_total. destruct (_ && _); [|discriminate].
  destruct (existsb _ _); [|discriminate]. now intros [=].
Qed.

Lemma derive_total_shape t t1 :
  derive_total t = inr t1 ->
  (forall c, mem_str c (tcols t) = true -> mem_str c (tcols t1) = true)
  /\ Forall2 (fun r r1 => forall c, c <> "prevalence_total" -> r1 c = r c) (trows t) (trows t1).
Proof.
  unfold derive_total. destruct (_ && _).
  - destruct (existsb _ _); [discriminate|]. intros [= <-]. split.
    + intros c Hc. cbn [tcols]. unfold mem_str in *. rewrite existsb_app. now rewrite Hc.
    + cbn [trows]. eapply Forall2_map_r_x; [|apply (Forall2_diag_x eq); reflexivity].
      intros r r' <- c Hc. now rewrite (proj2 (String.eqb_neq c _) Hc).
  - intros [= <-]. split; [auto|]. apply Forall2_diag_x. reflexivity.
Qed.

Lemma coerce_year_shape parse t t3 :
  coerce_year parse t = inr t3 ->
  tcols t3 = tcols t
  /\ Forall2 (fun r r3 => (forall c, c <> "year" -> r3 c = r c)
                /\ (mem_str "year" (tcols t) = true ->
                    r3 "year" = to_numeric_cell parse (r "year")
                    /\ forall q, to_numeric_cell parse (r "year") = CNum q ->
                                is_integral q && fits_int64 q = true))
       (trows t) (trows t3).
Proof.
  unfold coerce_year. destruct (mem_str "year" (tcols t)) eqn:M.
  - destruct (existsb (fun r => match to_numeric_cell parse (r "year") with
                                 | CNum q => negb (is_integral q && fits_int64 q)
                                 | _ => false
                                 end) (trows t)) eqn:E; [discriminate|]. intros [= <-].
    cbn [set_col tcols trows]. rewrite M. split; [reflexivity|].
    eapply Forall2_map_r_x with (Q := fun r r' => r = r' /\ In r (trows t));
      [|apply Forall2_diag_in_x; auto].
    intros r r' [<- Hr]. split.
    + intros c Hc. now rewrite (proj2 (String.eqb_neq c _) Hc).
    + intros _. split; [now rewrite String.eqb_refl|].
      intros q Hq. pose proof (existsb_false_x _ _ E r Hr) as E'. clear E. rename E' into E. cbn beta in E. rewrite Hq in E.
      now destruct (is_integral q && fits_int64 q).
  - intros [= <-]. split; [reflexivity|]. apply Forall2_diag_x. intros r. split; [reflexivity|discriminate].
Qed.

Lemma add_iso3_shape lower isalnum cased ci float_str cc raw t :
  let t' := add_iso3 lower isalnum cased ci float_str cc raw t in
  (forall c, c <> "country_iso3" -> mem_str c (tcols t') = mem_str c (tcols t))
  /\ (mem_str "country" (tcols t) = true -> mem_str "country_iso3" (tcols t') = true)
  /\ Forall2 (fun r r' => (forall c, c <> "country_iso3" -> r' c = r c)
                /\ (mem_str "country" (tcols t) = true ->
                    r' "country_iso3" = iso_cell (to_iso3_map lower isalnum cased ci cc raw
                                                  (VStr (cell_ustr float_str false (r "country"))))))
       (trows t) (trows t').
Proof.
  intros t'. unfold t', add_iso3. destruct (mem_str "country" (tcols t)) eqn:M.
  - split; [|split].
    + intros c Hc. rewrite mem_set_col, (proj2 (String.eqb_neq c _) Hc). apply orb_false_r.
    + intros _. rewrite mem_set_col, String.eqb_refl. apply orb_true_r.
    + cbn [trows set_col]. eapply Forall2_map_r_x; [|apply (Forall2_diag_x eq); reflexivity].
      intros r r' <-. split.
      * intros c Hc. now rewrite (proj2 (String.eqb_neq c _) Hc).
      * intros _. now rewrite String.eqb_refl.
  - split; [reflexivity|]. split; [discriminate|].
    apply Forall2_diag_x. intros r. split; [reflexivity|discriminate].
Qed.

Lemma to_numeric_cell_not_str parse c : is_str (to_numeric_cell parse c) = false.
Proof. destruct c as [|q|s]; try reflexivity. cbn. now destruct (parse s). Qed.

(** [ingest_csv] raises [TypeError] when [year] is a kept canonical column
    and one of its cells reads as a number that is not whole (say 2020.5):
    [astype("Int64")] refuses to cast it. *)
Lemma ingest_fractional_year_raises canonical lower isalnum cased ci parse float_str cc raw t r q :
  In "year" canonical -> mem_str "year" (tcols t) = true ->
  In r (trows t) -> to_numeric_cell parse (r "year") = CNum q -> is_integral q = false ->
  ingest_frame canonical lower isalnum cased ci parse float_str cc raw t = inl TypeError.
Proof.
  intros Hc Hy Hr Hq Hi. unfold ingest_frame.
  destruct (derive_total t) as [e|t1] eqn:D; [now rewrite (derive_total_err _ _ D)|].
  destruct (derive_total_shape _ _ D) as [Dc Dr].
  unfold coerce_year, keep_canonical. cbn [tcols trows].
  replace (mem_str "year" (filter (fun c => mem_str c (tcols t1)) canonical)) with true.
  2:{ symmetry. apply GapProps.mem_str_true_iff, filter_In. split; [exact Hc|]. now apply Dc. }
  destruct (Forall2_in_l_x _ _ _ r Dr Hr) as [r1 [Hr1 E1]].
  replace (existsb _ (trows t1)) with true; [reflexivity|].
  symmetry. apply existsb_exists. exists r1. split; [exact Hr1|].
  rewrite E1 by discriminate. now rewrite Hq, Hi.
Qed.

Lemma ingest_fractional_year_raises_witness :
  ingest_frame ["country"; "year"] latin1_lower latin1_isalnum latin1_cased latin1_case_ignorable (fun _ => None) (fun _ => "0.0") None Resolver.bundle_civ
    {| tcols := ["country"; "year"];
       trows := [mkrow [("country", CStr "France"); ("year", CNum (4041 # 2))]] |}
  = inl TypeError.
Proof.
  apply (ingest_fractional_year_raises _ _ _ _ _ _ _ _ _ _
           (mkrow [("country", CStr "France"); ("year", CNum (4041 # 2))]) (4041 # 2));
    try reflexivity.
  - now right; left.
  - now left.
Defined.



(** After a successful [ingest_csv], the [year] column holds whole
    numbers or missing values, and each of the five prevalence columns
    present holds numbers or missing values, never strings. *)
Lemma ingest_column_types canonical lower isalnum cased ci parse float_str cc raw t t' :
  ingest_frame canonical lower isalnum cased ci parse float_str cc raw t = inr t' ->
  forall r', In r' (trows t') ->
    (mem_str "year" (tcols t') = true ->
       r' "year" = CNull \/ exists q, r' "year" = CNum q /\ is_integral q = true)
    /\ (forall c, In c prevalence_cols -> mem_str c (tcols t') = true -> is_str (r' c) = false).
Proof.
  intros H r' Hr'. unfold ingest_frame in H.
  destruct (derive_total t) as [e|t1] eqn:D; [discriminate|].
  destruct (coerce_year parse (keep_canonical canonical t1)) as [e|t3] eqn:Y; [discriminate|].
  injection H as <-.
  destruct (coerce_year_shape _ _ _ Y) as [Yc Yr].
  destruct (ensure_numeric_shape parse t3 prevalence_cols) as [Ec Er].
  destruct (add_iso3_shape lower isalnum cased ci float_str cc raw (ensure_numeric parse t3 prevalence_cols)) as [Ac [_ Ar]].
  destruct (Forall2_in_r_x _ _ _ _ Ar Hr') as [r4 [Hr4 [A1 _]]].
  destruct (Forall2_in_r_x _ _ _ _ Er Hr4) as [r3 [Hr3 E1]].
  split.
  - intros Hy. rewrite Ac in Hy by discriminate. rewrite Ec, Yc in Hy.
    destruct (Forall2_in_r_x _ _ _ _ Yr Hr3) as [r2 [_ [_ Y2]]].
    destruct (Y2 Hy) as [Y3 Y4].
    rewrite A1 by discriminate. rewrite E1. cbn [mem_str existsb prevalence_cols String.eqb Ascii.eqb Bool.eqb andb orb].
    rewrite Y3. destruct (to_numeric_cell parse (r2 "year")) as [|q|s] eqn:Q.
    + now left.
    + right. exists q. split; [reflexivity|]. exact (proj1 (andb_prop _ _ (Y4 q eq_refl))).
    + pose proof (to_numeric_cell_not_str parse (r2 "year")) as N. now rewrite Q in N.
  - intros c Hc Hm. rewrite Ac in Hm by (intros ->; destruct Hc as [?|[?|[?|[?|[?|[]]]]]]; discriminate).
    rewrite Ec in Hm.
    rewrite A1 by (intros ->; destruct Hc as [?|[?|[?|[?|[?|[]]]]]]; discriminate).
    rewrite E1. rewrite Ec in *.
    replace (mem_str c prevalence_cols) with true by (symmetry; now apply GapProps.mem_str_true_iff).
    rewrite Hm. apply to_numeric_cell_not_str.
Qed.

Lemma ingest_column_types_witness :
  exists t', ingest_frame ["country"; "year"; "prevalence_total"] latin1_lower latin1_isalnum latin1_cased latin1_case_ignorable
               (fun s => if String.eqb s "2020" then Some 2020 else None) (fun _ => "0.0") None
               Resolver.bundle_civ
               {| tcols := ["country"; "year"; "prevalence_total"];
                  trows := [mkrow [("country", CStr "France"); ("year", CStr "2020");
                                   ("prevalence_total", CStr "n/a")]] |} = inr t'
    /\ forall r', In r' (trows t') ->
         (mem_str "year" (tcols t') = true ->
            r' "year" = CNull \/ exists q, r' "year" = CNum q /\ is_integral q = true)
         /\ (forall c, In c prevalence_cols -> mem_str c (tcols t') = true -> is_str (r' c) = false).
Proof.
  eexists. split; [reflexivity|].
  apply (ingest_column_types ["country"; "year"; "prevalence_total"] latin1_lower latin1_isalnum latin1_cased latin1_case_ignorable
           (fun s => if String.eqb s "2020" then Some 2020 else None) (fun _ => "0.0") None
           Resolver.bundle_civ
           {| tcols := ["country"; "year"; "prevalence_total"];
              trows := [mkrow [("country", CStr "France"); ("year", CStr "2020");
                               ("prevalence_total", CStr "n/a")]] |}).
  reflexivity.
Defined.

End IngestExtra.
